(** * Row filtering core of the MySQL replication pipeline

    A shallow embedding of [drivers/mysql/common/tabletypes.go]: the table
    model ([Table], [TableContext], [WhereContext]), the predicate compiler
    [NewWhereCtx] and the predicate evaluator [WhereTrue], followed by the
    properties of the specification that concern them.

    Conventions of the embedding.
    - Go's [int]/[int64] are [Z]; slices are lists; [map[string]T] is
      [gmap string T]; a nilable pointer whose dereference matters is an
      [option].
    - A Go call either returns or panics: [outcome].  A returned
      [(T, error)] pair is a pair with an [option error], or a sum when the
      source returns [nil] for the value on the error path.
    - [WhereTrue] has a pointer receiver and takes the row by pointer, so it
      is written in a state monad over the objects it can reach.
    - Go ranges over a map in an unspecified order: the evaluator takes the
      order as an argument, and the properties quantify over every order
      that is a permutation of the map's entries. *)

From Stdlib Require Import ZArith Lia Ascii String List.
From Stdlib.Strings Require Import Byte.
From stdpp Require Import base option list gmap strings fin_maps.

Local Open Scope string_scope.
Local Open Scope Z_scope.

(** ** Go values and outcomes *)

(** The dynamic values an [interface{}] holds in a decoded row or in the
    evaluation environment.  [VNil] is the nil interface. *)
Inductive GoValue : Type :=
  | VNil
  | VBool (b : bool)
  | VInt (n : Z)
  | VString (s : string)
  | VBytes (bs : list byte).

(** What [%T] prints for a value. *)
Definition type_name (v : GoValue) : string :=
  match v with
  | VNil => "<nil>"
  | VBool _ => "bool"
  | VInt _ => "int64"
  | VString _ => "string"
  | VBytes _ => "[]uint8"
  end.

(** Run-time panics the embedded code can raise. *)
Inductive panic : Type :=
  | NilPointerDereference
  | IndexOutOfRange (index len : Z).

Inductive outcome (A : Type) : Type :=
  | Return (a : A)
  | Panic (p : panic).
Arguments Return {A} a.
Arguments Panic {A} p.

(** The errors built with [fmt.Errorf] in this file, kept with the arguments
    of their format strings, and the parser's own error passed through. *)
Inductive error : Type :=
  (* the error of expr.ParseExpression *)
  | ErrParse (msg : string)
  (* "bad 'where' for table %v.%v: field %v does not exist. known fields: %v" *)
  | ErrBadWhere (schema table field : string) (known : gmap string Z)
  (* "cannot eval 'where' predicate: no enough columns (%v < %v)" *)
  | ErrNotEnoughColumns (nCols idx : Z)
  (* "where_predicate. expect []byte for TextColumnType, but got %T" *)
  | ErrExpectBytes (got : string)
  (* "cannot eval 'where' predicate with the row value" *)
  | ErrCannotEval
  (* "'where' predicate does not eval to bool" *)
  | ErrNotBool.

(** ** strings.ToLower

    On ASCII text [strings.ToLower] maps [A-Z] to [a-z] byte by byte.  On
    other text it lowers Unicode letters; the only non-ASCII runes whose
    lower case is ASCII give [k] and [i], so the comparisons with ["true"]
    and ["false"] made by the source have the same answer under the
    byte-wise definition below. *)
Definition lower_ascii (c : ascii) : ascii :=
  let n := N_of_ascii c in
  if ((65 <=? n) && (n <=? 90))%N then ascii_of_N (n + 32) else c.

Fixpoint ToLower (s : string) : string :=
  match s with
  | EmptyString => EmptyString
  | String c r => String (lower_ascii c) (ToLower r)
  end.

(** ** The expression library

    [expr.ParseExpression], [expr.FindAllIdentityField] and [vm.Eval] belong
    to the external library qlbridge.  The embedding is parametric in them;
    [Eval env ast] stands for [vm.Eval(datasource.NewContextSimpleNative(env),
    ast)] followed by [.Value()], and [None] for its [ok = false]. *)
Class ExprLib : Type := {
  Node : Type;
  ParseExpression : string -> Node + string;
  FindAllIdentityField : Node -> list string;
  Eval : gmap string GoValue -> Node -> option GoValue
}.

(** ** Data model *)

(** Modelled from the spec: [mysqlconfig.ColumnType] is declared outside the
    files at hand; it is an enumerated kind with a distinguished large
    text/blob kind, the only one the evaluator tells apart. *)
Inductive ColumnType : Type :=
  | TextColumnType
  | OtherColumnType (kind : Z).

(** Modelled from the spec: [mysqlconfig.Column], a name and a declared
    type. *)
Record Column : Type := {
  Name : string;
  ColType : ColumnType
}.

(** Modelled from the spec: [ColumnList], declared in a file of this
    package that is not at hand: the ordered columns (what the method
    [ColumnList()] returns) and the name-to-ordinal map [Ordinals]. *)
Record ColumnList : Type := {
  Columns : list Column;
  Ordinals : gmap string Z
}.

(** Modelled from the spec: the declared unique key of a table. *)
Record UniqueKey : Type := {
  UniqueKeyName : string;
  UniqueKeyColumns : list string
}.

(** Modelled from the spec: [ColumnValues], one decoded row; each entry of
    [AbstractValues] is the value a non-nil [*interface{}] points to. *)
Record ColumnValues : Type := {
  AbstractValues : list GoValue
}.

Record Table : Type := {
  TableName : string;
  TableRegex : string;
  TableRename : string;
  TableRenameRegex : string;
  TableSchema : string;
  TableSchemaRename : string;
  Counter : Z;
  ColumnMapFrom : list string;
  OriginalTableColumns : option ColumnList;
  UseUniqueKey : option UniqueKey;
  Iteration : Z;
  ColumnMap : list Z;
  TableType : string;
  TableEngine : string;
  RowsEstimate : Z;
  Where : string
}.

Definition NewTable (schemaName tableName : string) : Table :=
  {| TableName := tableName;
     TableRegex := "";
     TableRename := "";
     TableRenameRegex := "";
     TableSchema := schemaName;
     TableSchemaRename := "";
     Counter := 0;
     ColumnMapFrom := [];
     OriginalTableColumns := None;
     UseUniqueKey := None;
     Iteration := 0;
     ColumnMap := [];
     TableType := "";
     TableEngine := "";
     RowsEstimate := 0;
     Where := "true" |}.

(** The field [Where] of the Go struct [WhereContext] is [WhereText] here,
    [Where] being the field of [Table]. *)
Record WhereContext `{ExprLib} : Type := {
  WhereText : string;
  Ast : Node;
  FieldsMap : gmap string Z;
  IsDefault : bool
}.

(** The field [Table] of the Go struct [TableContext] is [TableOf] here. *)
Record TableContext `{ExprLib} : Type := {
  TableOf : Table;
  WhereCtx : WhereContext;
  DefChangedSent : bool
}.

Definition NewTableContext `{ExprLib} (table : Table) (whereCtx : WhereContext)
  : TableContext :=
  {| TableOf := table;
     WhereCtx := whereCtx;
     DefChangedSent := false |}.

(** ** The predicate compiler *)

(** The test [escapedFieldName == "true" || escapedFieldName == "false"]. *)
Definition isReserved (escapedFieldName : string) : bool :=
  bool_decide (escapedFieldName = "true")
  || bool_decide (escapedFieldName = "false").

(** The loop of [NewWhereCtx] over the identifiers of the parsed expression,
    in the order [FindAllIdentityField] lists them.  The map [fieldsMap] is
    the one being filled; an unknown field ends the loop with the error. *)
Fixpoint resolveFields (table : Table) (fields : list string)
    (fieldsMap : gmap string Z) : outcome (gmap string Z + error) :=
  match fields with
  | [] => Return (inl fieldsMap)
  | field :: rest =>
      let escapedFieldName := ToLower field in
      if isReserved escapedFieldName then
        (* qlbridge limitation *)
        resolveFields table rest fieldsMap
      else
        match fieldsMap !! field with
        | None =>
            match OriginalTableColumns table with
            | None => Panic NilPointerDereference
            | Some columns =>
                match Ordinals columns !! field with
                | None =>
                    Return (inr (ErrBadWhere (TableSchema table) (TableName table)
                                   field (Ordinals columns)))
                | Some ordinal =>
                    resolveFields table rest (<[field := ordinal]> fieldsMap)
                end
            end
        | Some _ =>
            (* already mapped *)
            resolveFields table rest fieldsMap
        end
  end.

Definition NewWhereCtx `{ExprLib} (where_ : string) (table : Table)
  : outcome (WhereContext + error) :=
  match ParseExpression where_ with
  | inr err => Return (inr (ErrParse err))
  | inl ast =>
      let fields := FindAllIdentityField ast in
      match resolveFields table fields ∅ with
      | Panic p => Panic p
      | Return (inr err) => Return (inr err)
      | Return (inl fieldsMap) =>
          Return (inl {| WhereText := where_;
                         Ast := ast;
                         FieldsMap := fieldsMap;
                         IsDefault := bool_decide (ToLower where_ = "true") |})
      end
  end.

(** ** The predicate evaluator *)

(** The objects [WhereTrue] reaches through its two pointers: the receiver
    and the row. *)
Record Store `{ExprLib} : Type := {
  this : TableContext;
  values : ColumnValues
}.

(** Computations over the store that return or panic. *)
Definition M `{ExprLib} (A : Type) : Type := Store -> outcome A * Store.

Definition ret `{ExprLib} {A : Type} (a : A) : M A :=
  fun s => (Return a, s).

Definition raise `{ExprLib} {A : Type} (p : panic) : M A :=
  fun s => (Panic p, s).

Definition bind `{ExprLib} {A B : Type} (c : M A) (k : A -> M B) : M B :=
  fun s =>
    match c s with
    | (Return a, s') => k a s'
    | (Panic p, s') => (Panic p, s')
    end.

Definition load `{ExprLib} {A : Type} (proj : Store -> A) : M A :=
  fun s => (Return (proj s), s).

Notation "'do' x <- c ;; k" := (bind c (fun x => k))
  (at level 10, x name, c at level 99, k at level 200).

(** Slice indexing [l[idx]], which panics out of range. *)
Definition index `{ExprLib} {A : Type} (l : list A) (idx : Z) : M A :=
  if (idx <? 0) || (Z.of_nat (length l) <=? idx) then
    raise (IndexOutOfRange idx (Z.of_nat (length l)))
  else
    match l !! Z.to_nat idx with
    | Some x => ret x
    | None => raise (IndexOutOfRange idx (Z.of_nat (length l)))
    end.

(** Pointer dereference. *)
Definition deref `{ExprLib} {A : Type} (p : option A) : M A :=
  match p with
  | Some x => ret x
  | None => raise NilPointerDereference
  end.

(** The body of the loop of [WhereTrue] for one ordinal, up to the value it
    binds: the column-count check, the read of the raw value and its
    coercion by the declared column type.  [inr] is the early
    [return false, err]. *)
Definition columnValue `{ExprLib} (idx : Z) : M (GoValue + error) :=
  do abstractValues <- load (fun s => AbstractValues (values s));;
  let nCols := Z.of_nat (length abstractValues) in
  if nCols <=? idx then
    ret (inr (ErrNotEnoughColumns nCols idx))
  else
    do rawValue <- index abstractValues idx;;
    match rawValue with
    | VNil => ret (inl rawValue)
    | _ =>
        do originalTableColumns <-
           load (fun s => OriginalTableColumns (TableOf (this s)));;
        do columnList <- deref originalTableColumns;;
        do column <- index (Columns columnList) idx;;
        match ColType column with
        | TextColumnType =>
            match rawValue with
            | VBytes bs => ret (inl (VString (string_of_list_byte bs)))
            | _ => ret (inr (ErrExpectBytes (type_name rawValue)))
            end
        | _ => ret (inl rawValue)
        end
    end.

(** The loop of [WhereTrue] over the entries of [FieldsMap], visited in the
    order [entries]; [m] is the environment being filled. *)
Fixpoint bindFields `{ExprLib} (entries : list (string * Z))
    (m : gmap string GoValue) : M (gmap string GoValue + error) :=
  match entries with
  | [] => ret (inl m)
  | (field, idx) :: rest =>
      do value <- columnValue idx;;
      match value with
      | inr err => ret (inr err)
      | inl value => bindFields rest (<[field := value]> m)
      end
  end.

(** [WhereTrue], for the order [entries] in which the range statement
    visits [t.WhereCtx.FieldsMap]. *)
Definition WhereTrue `{ExprLib} (entries : list (string * Z))
  : M (bool * option error) :=
  do bound <- bindFields entries ∅;;
  match bound with
  | inr err => ret (false, Some err)
  | inl m =>
      do ast <- load (fun s => Ast (WhereCtx (this s)));;
      match Eval m ast with
      | None => ret (false, Some ErrCannotEval)
      | Some val =>
          match val with
          | VBool r => ret (r, None)
          | _ => ret (false, Some ErrNotBool)
          end
      end
  end.

(** The orders in which Go may visit the entries of a map. *)
Definition rangeOrder (fieldsMap : gmap string Z)
    (entries : list (string * Z)) : Prop :=
  entries ≡ₚ map_to_list fieldsMap.

(** One call [t.WhereTrue(values)]: its result for the visiting order
    [entries]. *)
Definition callWhereTrue `{ExprLib} (t : TableContext) (row : ColumnValues)
    (entries : list (string * Z)) : outcome (bool * option error) :=
  fst (WhereTrue entries {| this := t; values := row |}).

(** ** A small expression language

    Modelled from the spec: the expression library is external, and the
    specification describes the language it must provide (section 4.4 and
    the design notes): identifier references, string, number and null
    literals, the comparisons [= != < <= > >=], the connectives
    [and or not] and parentheses, parsed by recursive descent into a tree of
    tagged variants and evaluated by a tree walk over a name-to-value
    environment.  As the source notes ("qlbridge limitation"), [true] and
    [false] are identifiers to the parser, in any letter case, and the
    evaluator gives them their boolean value.  Identifier text is kept as
    written.  This instance serves to run the compiler and the evaluator on
    concrete expressions. *)
Module MiniQL.

Inductive cmpop : Type := CmpEq | CmpNe | CmpLt | CmpLe | CmpGt | CmpGe.

Inductive logop : Type := LogAnd | LogOr.

Inductive node : Type :=
  | NIdentity (text : string)
  | NLiteral (v : GoValue)
  | NNot (arg : node)
  | NCompare (op : cmpop) (lhs rhs : node)
  | NLogical (op : logop) (lhs rhs : node).

Inductive token : Type :=
  | TIdent (text : string)
  | TString (s : string)
  | TNumber (n : Z)
  | TCmp (op : cmpop)
  | TAnd | TOr | TNot | TNull
  | TLParen | TRParen.

Definition isSpace (c : ascii) : bool :=
  let n := N_of_ascii c in
  ((n =? 32) || (n =? 9) || (n =? 10) || (n =? 13))%N.

Definition isDigit (c : ascii) : bool :=
  let n := N_of_ascii c in ((48 <=? n) && (n <=? 57))%N.

Definition isLetter (c : ascii) : bool :=
  let n := N_of_ascii c in
  (((65 <=? n) && (n <=? 90)) || ((97 <=? n) && (n <=? 122)) || (n =? 95))%N.

Definition isQuote (c : ascii) : bool := (N_of_ascii c =? 39)%N.

(** The longest prefix of [cs] whose characters satisfy [p], and the rest. *)
Fixpoint span (p : ascii -> bool) (cs : list ascii)
  : list ascii * list ascii :=
  match cs with
  | c :: rest =>
      if p c then let '(pre, post) := span p rest in (c :: pre, post)
      else ([], cs)
  | [] => ([], [])
  end.

Definition digitsValue (ds : list ascii) : Z :=
  fold_left (fun acc d => 10 * acc + (Z.of_N (N_of_ascii d) - 48)) ds 0.

Definition word (text : string) : token :=
  let lowered := ToLower text in
  if bool_decide (lowered = "and") then TAnd
  else if bool_decide (lowered = "or") then TOr
  else if bool_decide (lowered = "not") then TNot
  else if bool_decide (lowered = "null") then TNull
  else TIdent text.

Definition operator (c : ascii) (rest : list ascii)
  : option (token * list ascii) :=
  match c, rest with
  | "!"%char, "="%char :: rest' => Some (TCmp CmpNe, rest')
  | "<"%char, "="%char :: rest' => Some (TCmp CmpLe, rest')
  | ">"%char, "="%char :: rest' => Some (TCmp CmpGe, rest')
  | "="%char, _ => Some (TCmp CmpEq, rest)
  | "<"%char, _ => Some (TCmp CmpLt, rest)
  | ">"%char, _ => Some (TCmp CmpGt, rest)
  | "("%char, _ => Some (TLParen, rest)
  | ")"%char, _ => Some (TRParen, rest)
  | _, _ => None
  end.

(** The lexer; white space between tokens is skipped. *)
Fixpoint lex (fuel : nat) (cs : list ascii) : option (list token) :=
  match fuel with
  | O => None
  | S fuel' =>
      match cs with
      | [] => Some []
      | c :: rest =>
          if isSpace c then lex fuel' rest
          else if isLetter c then
            let '(pre, post) := span (fun d => isLetter d || isDigit d) cs in
            cons (word (string_of_list_ascii pre)) <$> lex fuel' post
          else if isDigit c then
            let '(pre, post) := span isDigit cs in
            cons (TNumber (digitsValue pre)) <$> lex fuel' post
          else if isQuote c then
            match span (fun d => negb (isQuote d)) rest with
            | (body, _ :: post) =>
                cons (TString (string_of_list_ascii body)) <$> lex fuel' post
            | (_, []) => None
            end
          else
            match operator c rest with
            | Some (tok, post) => cons tok <$> lex fuel' post
            | None => None
            end
      end
  end.

Definition tokenize (text : string) : option (list token) :=
  let cs := list_ascii_of_string text in lex (S (length cs)) cs.

(** Recursive descent: or, and, not, comparison, primary. *)
Fixpoint parseOr (fuel : nat) (ts : list token) {struct fuel}
  : option (node * list token) :=
  match fuel with
  | O => None
  | S fuel' =>
      let parsed := parseAnd fuel' ts in
      match parsed with
      | Some (lhs, TOr :: rest) =>
          match parseOr fuel' rest with
          | Some (rhs, rest') => Some (NLogical LogOr lhs rhs, rest')
          | None => None
          end
      | _ => parsed
      end
  end
with parseAnd (fuel : nat) (ts : list token) {struct fuel}
  : option (node * list token) :=
  match fuel with
  | O => None
  | S fuel' =>
      let parsed := parseNot fuel' ts in
      match parsed with
      | Some (lhs, TAnd :: rest) =>
          match parseAnd fuel' rest with
          | Some (rhs, rest') => Some (NLogical LogAnd lhs rhs, rest')
          | None => None
          end
      | _ => parsed
      end
  end
with parseNot (fuel : nat) (ts : list token) {struct fuel}
  : option (node * list token) :=
  match fuel with
  | O => None
  | S fuel' =>
      match ts with
      | TNot :: rest =>
          match parseNot fuel' rest with
          | Some (arg, rest') => Some (NNot arg, rest')
          | None => None
          end
      | _ => parseCmp fuel' ts
      end
  end
with parseCmp (fuel : nat) (ts : list token) {struct fuel}
  : option (node * list token) :=
  match fuel with
  | O => None
  | S fuel' =>
      let parsed := parsePrimary fuel' ts in
      match parsed with
      | Some (lhs, TCmp op :: rest) =>
          match parsePrimary fuel' rest with
          | Some (rhs, rest') => Some (NCompare op lhs rhs, rest')
          | None => None
          end
      | _ => parsed
      end
  end
with parsePrimary (fuel : nat) (ts : list token) {struct fuel}
  : option (node * list token) :=
  match fuel with
  | O => None
  | S fuel' =>
      match ts with
      | TIdent text :: rest => Some (NIdentity text, rest)
      | TString s :: rest => Some (NLiteral (VString s), rest)
      | TNumber n :: rest => Some (NLiteral (VInt n), rest)
      | TNull :: rest => Some (NLiteral VNil, rest)
      | TLParen :: rest =>
          match parseOr fuel' rest with
          | Some (inner, TRParen :: rest') => Some (inner, rest')
          | _ => None
          end
      | _ => None
      end
  end.

Definition parseExpression (text : string) : node + string :=
  match tokenize text with
  | None => inr "unrecognized input"
  | Some ts =>
      match parseOr (5 * S (length ts)) ts with
      | Some (ast, []) => inl ast
      | _ => inr "malformed expression"
      end
  end.

(** Every identifier of the tree, left to right, repeated as often as it
    occurs. *)
Fixpoint findAllIdentityField (n : node) : list string :=
  match n with
  | NIdentity text => [text]
  | NLiteral _ => []
  | NNot arg => findAllIdentityField arg
  | NCompare _ lhs rhs | NLogical _ lhs rhs =>
      findAllIdentityField lhs ++ findAllIdentityField rhs
  end.

Definition compareZ (op : cmpop) (a b : Z) : bool :=
  match op with
  | CmpEq => a =? b
  | CmpNe => negb (a =? b)
  | CmpLt => a <? b
  | CmpLe => a <=? b
  | CmpGt => b <? a
  | CmpGe => b <=? a
  end.

Definition compareValues (op : cmpop) (a b : GoValue) : option GoValue :=
  match a, b with
  | VInt x, VInt y => Some (VBool (compareZ op x y))
  | VString x, VString y =>
      match op with
      | CmpEq => Some (VBool (bool_decide (x = y)))
      | CmpNe => Some (VBool (negb (bool_decide (x = y))))
      | _ => None
      end
  | VBool x, VBool y =>
      match op with
      | CmpEq => Some (VBool (Bool.eqb x y))
      | CmpNe => Some (VBool (negb (Bool.eqb x y)))
      | _ => None
      end
  | _, _ => None
  end.

(** The tree walk.  An identifier absent from the environment, an operand
    of the wrong kind and a comparison with null all fail. *)
Fixpoint eval (env : gmap string GoValue) (n : node) : option GoValue :=
  match n with
  | NIdentity text =>
      let lowered := ToLower text in
      if bool_decide (lowered = "true") then Some (VBool true)
      else if bool_decide (lowered = "false") then Some (VBool false)
      else env !! text
  | NLiteral v => Some v
  | NNot arg =>
      match eval env arg with
      | Some (VBool b) => Some (VBool (negb b))
      | _ => None
      end
  | NCompare op lhs rhs =>
      match eval env lhs, eval env rhs with
      | Some a, Some b => compareValues op a b
      | _, _ => None
      end
  | NLogical op lhs rhs =>
      match eval env lhs, eval env rhs with
      | Some (VBool a), Some (VBool b) =>
          Some (VBool (match op with LogAnd => a && b | LogOr => a || b end))
      | _, _ => None
      end
  end.

#[export] Instance lib : ExprLib := {
  Node := node;
  ParseExpression := parseExpression;
  FindAllIdentityField := findAllIdentityField;
  Eval := eval
}.

End MiniQL.

(** The white-space trimming the specification mentions for the default
    flag, written after its words (leading and trailing blanks removed); the
    source has no counterpart. *)
Definition spec_trimLeft (s : string) : string :=
  string_of_list_ascii (snd (MiniQL.span MiniQL.isSpace (list_ascii_of_string s))).

Definition spec_trimSpace (s : string) : string :=
  let back := rev (list_ascii_of_string (spec_trimLeft s)) in
  string_of_list_ascii (rev (snd (MiniQL.span MiniQL.isSpace back))).

(** ** Auxiliary notions used by the statements *)

(** An identifier the compiler cannot resolve against the column list
    [columns]: not a reserved literal and absent from [Ordinals]. *)
Definition unknownField (columns : ColumnList) (field : string) : bool :=
  negb (isReserved (ToLower field))
  && bool_decide (Ordinals columns !! field = None).

(** Every ordinal bound by the compiled predicate indexes the column list
    of the table, the invariant of a column list whose ordinals are the
    positions of its columns. *)
Definition columnsCover `{ExprLib} (t : TableContext) : Prop :=
  ∃ columns,
    OriginalTableColumns (TableOf t) = Some columns
    ∧ ∀ field idx, FieldsMap (WhereCtx t) !! field = Some idx →
        0 <= idx < Z.of_nat (length (Columns columns)).

(** The loop of [WhereTrue] as run by one call. *)
Definition callBindFields `{ExprLib} (t : TableContext) (row : ColumnValues)
    (entries : list (string * Z)) : outcome (gmap string GoValue + error) :=
  fst (bindFields entries ∅ {| this := t; values := row |}).

(** A table with the given columns, ordinals being given apart; the other
    fields are those of [NewTable]. *)
Definition tableWith (schemaName tableName : string) (columns : list Column)
    (ordinals : gmap string Z) : Table :=
  let table := NewTable schemaName tableName in
  {| TableName := TableName table;
     TableRegex := TableRegex table;
     TableRename := TableRename table;
     TableRenameRegex := TableRenameRegex table;
     TableSchema := TableSchema table;
     TableSchemaRename := TableSchemaRename table;
     Counter := Counter table;
     ColumnMapFrom := ColumnMapFrom table;
     OriginalTableColumns :=
       Some {| Columns := columns; Ordinals := ordinals |};
     UseUniqueKey := UseUniqueKey table;
     Iteration := Iteration table;
     ColumnMap := ColumnMap table;
     TableType := TableType table;
     TableEngine := TableEngine table;
     RowsEstimate := RowsEstimate table;
     Where := Where table |}.

(** ** Sample tables and rows *)

(** [orders(status)], the column being of an ordinary kind. *)
Definition ordersTable : Table :=
  tableWith "shop" "orders"
    [ {| Name := "status"; ColType := OtherColumnType 0 |} ]
    {[ "status" := 0 ]}.

(** [people(age, bio)], [bio] being a large text column. *)
Definition peopleTable : Table :=
  tableWith "shop" "people"
    [ {| Name := "age"; ColType := OtherColumnType 0 |};
      {| Name := "bio"; ColType := TextColumnType |} ]
    {[ "age" := 0; "bio" := 1 ]}.

(** The predicate [age > 30] as [NewWhereCtx] compiles it for
    [peopleTable]. *)
Definition ageWhereCtx : @WhereContext MiniQL.lib :=
  @Build_WhereContext MiniQL.lib
    "age > 30"
    (MiniQL.NCompare MiniQL.CmpGt (MiniQL.NIdentity "age")
       (MiniQL.NLiteral (VInt 30)))
    {[ "age" := 0 ]}
    false.

(** The predicate [bio = 'x' and age > 30] as compiled for [peopleTable]. *)
Definition bioWhereCtx : @WhereContext MiniQL.lib :=
  @Build_WhereContext MiniQL.lib
    "bio = 'x' and age > 30"
    (MiniQL.NLogical MiniQL.LogAnd
       (MiniQL.NCompare MiniQL.CmpEq (MiniQL.NIdentity "bio")
          (MiniQL.NLiteral (VString "x")))
       (MiniQL.NCompare MiniQL.CmpGt (MiniQL.NIdentity "age")
          (MiniQL.NLiteral (VInt 30))))
    {[ "bio" := 1; "age" := 0 ]}
    false.

(** The bytes of the text [x]. *)
Definition bytes_x : list byte := [x78%byte].


(** The value the specification has the evaluator bind for the ordinal
    [idx] of a row, written after its words: the raw value is read; nil is
    bound as nil; otherwise the value is coerced by the declared type of the
    column, a large-text value being a byte sequence that is decoded to
    text, and every other kind bound as it is.  [None] when the
    specification binds nothing: the row or the column list has no such
    ordinal, or a large-text value is not a byte sequence. *)
Definition spec_boundValue `{ExprLib} (t : TableContext) (row : ColumnValues)
    (idx : Z) : option GoValue :=
  if idx <? 0 then None
  else
    match AbstractValues row !! Z.to_nat idx with
    | None => None
    | Some VNil => Some VNil
    | Some rawValue =>
        match OriginalTableColumns (TableOf t) with
        | None => None
        | Some columns =>
            match Columns columns !! Z.to_nat idx with
            | None => None
            | Some column =>
                match ColType column with
                | TextColumnType =>
                    match rawValue with
                    | VBytes bs => Some (VString (string_of_list_byte bs))
                    | _ => None
                    end
                | OtherColumnType _ => Some rawValue
                end
            end
        end
    end.

(** The ordinals whose read cannot panic: one the row does not reach is
    refused by the column-count check; one within the row is not negative,
    and holds nil or has a column in the column list. *)
Definition panicFree `{ExprLib} (t : TableContext) (row : ColumnValues)
    (idx : Z) : Prop :=
  idx < Z.of_nat (length (AbstractValues row)) →
  0 <= idx
  ∧ (AbstractValues row !! Z.to_nat idx = Some VNil
     ∨ ∃ columns, OriginalTableColumns (TableOf t) = Some columns
                  ∧ idx < Z.of_nat (length (Columns columns))).

(** [address(age, bio, zip)], [bio] being a large text column, and the
    predicate [bio = 'x' and zip = 7] as compiled for it.  Evaluated with
    [peopleTable], this is a predicate that outlived a narrowing of the
    schema. *)
Definition addressTable : Table :=
  tableWith "shop" "address"
    [ {| Name := "age"; ColType := OtherColumnType 0 |};
      {| Name := "bio"; ColType := TextColumnType |};
      {| Name := "zip"; ColType := OtherColumnType 0 |} ]
    {[ "age" := 0; "bio" := 1; "zip" := 2 ]}.

Definition zipWhereCtx : @WhereContext MiniQL.lib :=
  @Build_WhereContext MiniQL.lib
    "bio = 'x' and zip = 7"
    (MiniQL.NLogical MiniQL.LogAnd
       (MiniQL.NCompare MiniQL.CmpEq (MiniQL.NIdentity "bio")
          (MiniQL.NLiteral (VString "x")))
       (MiniQL.NCompare MiniQL.CmpEq (MiniQL.NIdentity "zip")
          (MiniQL.NLiteral (VInt 7))))
    {[ "bio" := 1; "zip" := 2 ]}
    false.

(** ** Checking the keys of a configuration block

    [checkHCLKeys] of the agent's configuration parser.  The syntax tree is
    that of the external HCL library: of its node types the function tells
    apart [*ast.ObjectList] and [*ast.ObjectType], whose [List] is an object
    list; every other node is [OtherNode], carrying what [%T] prints for it.
    An object key is kept as the value [Token.Value()] gives.  Errors are
    [fmt.Errorf] messages or a [multierror.Error] holding a list. *)
Module HCL.

Inductive Node : Type :=
  | ObjectList (Items : list ObjectItem)
  | ObjectType (List : list ObjectItem)
  | OtherNode (typeName : string)
with ObjectItem : Type :=
  | Item (Keys : list GoValue) (Val : Node).

Definition Keys (item : ObjectItem) : list GoValue :=
  match item with Item keys _ => keys end.

Definition Val (item : ObjectItem) : Node :=
  match item with Item _ val => val end.

#[warnings="-register-all"]
Inductive goError : Type :=
  | Errorf (msg : string)
  | MultiError (Errors : list goError).

(** The panics of [item.Keys[0].Token.Value().(string)]. *)
Inductive hclPanic : Type :=
  | KeysIndexOutOfRange
  | InterfaceConversion (got : string).

Inductive run (A : Type) : Type :=
  | Done (a : A)
  | Panicked (p : hclPanic).
Arguments Done {A} a.
Arguments Panicked {A} p.

(** [multierror.Append(err, e)] for one added error: a multi-error is
    extended, anything else starts a new one; an added multi-error is
    flattened. *)
Definition flatten (e : goError) : list goError :=
  match e with
  | MultiError errs => errs
  | Errorf _ => [e]
  end.

Definition Append (err : option goError) (e : goError) : goError :=
  match err with
  | Some (MultiError errs) => MultiError (errs ++ flatten e)
  | Some other => MultiError (flatten other ++ flatten e)
  | None => MultiError (flatten e)
  end.

(** The loop that fills [validMap]. *)
Definition makeValidMap (valid : list string) : gmap string unit :=
  fold_left (fun validMap v => <[v := tt]> validMap) valid ∅.

(** The loop over [list.Items]; [result] is the error accumulated so far. *)
Fixpoint checkItems (validMap : gmap string unit) (items : list ObjectItem)
    (result : option goError) : run (option goError) :=
  match items with
  | [] => Done result
  | item :: rest =>
      match Keys item with
      | [] => Panicked KeysIndexOutOfRange
      | VString key :: _ =>
          match validMap !! key with
          | None =>
              checkItems validMap rest
                (Some (Append result (Errorf ("invalid key: " +:+ key))))
          | Some _ => checkItems validMap rest result
          end
      | other :: _ => Panicked (InterfaceConversion (type_name other))
      end
  end.

Definition checkHCLKeys (node : Node) (valid : list string)
  : run (option goError) :=
  match node with
  | ObjectList items => checkItems (makeValidMap valid) items None
  | ObjectType list_ => checkItems (makeValidMap valid) list_ None
  | OtherNode typeName =>
      Done (Some (Errorf ("cannot check HCL keys of type " +:+ typeName)))
  end.

(** The items whose keys [checkHCLKeys] checks, for the two kinds of node
    it accepts. *)
Definition itemsOf (node : Node) : option (list ObjectItem) :=
  match node with
  | ObjectList items => Some items
  | ObjectType list_ => Some list_
  | OtherNode _ => None
  end.

(** The first key of an item when it is a string. *)
Definition firstKey (item : ObjectItem) : option string :=
  match Keys item with
  | VString key :: _ => Some key
  | _ => None
  end.

(** The first keys of [items] that are not among [valid], in the order of
    the items. *)
Definition invalidKeys (valid : list string) (items : list ObjectItem)
  : list string :=
  filter (fun key => key ∉ valid) (omap firstKey items).

(** The message of an invalid key. *)
Definition invalidKey (key : string) : goError :=
  Errorf ("invalid key: " +:+ key).

(** The keys allowed in a [ports] block, and a block as parsed from
    [ports { http = 1, grpc = 2, rpc = 3, smtp = 4 }]. *)
Definition portsKeys : list string := ["http"; "rpc"; "serf"].

Definition samplePorts : Node :=
  ObjectType
    [ Item [VString "http"] (OtherNode "*ast.LiteralType");
      Item [VString "grpc"] (OtherNode "*ast.LiteralType");
      Item [VString "rpc"] (OtherNode "*ast.LiteralType");
      Item [VString "smtp"] (OtherNode "*ast.LiteralType") ].

End HCL.

(** ** The compiler resolves identifiers by their exact text *)

Lemma resolveFields_sound table fields :
  ∀ fieldsMap fieldsMap',
    resolveFields table fields fieldsMap = Return (inl fieldsMap') →
    ∀ f k, fieldsMap' !! f = Some k →
      fieldsMap !! f = Some k
      ∨ (f ∈ fields ∧ isReserved (ToLower f) = false
         ∧ ∃ columns, OriginalTableColumns table = Some columns
                      ∧ Ordinals columns !! f = Some k).
Proof.
  induction fields as [|field rest IH]; intros fm fm' Hrun f k Hf; simpl in Hrun.
  - left. congruence.
  - destruct (isReserved (ToLower field)) eqn:Hres.
    { destruct (IH _ _ Hrun _ _ Hf) as [?|(?&?&?)]; [by left|right].
      split; [apply elem_of_cons; by right|done]. }
    destruct (fm !! field) as [k0|] eqn:Hfm.
    { destruct (IH _ _ Hrun _ _ Hf) as [?|(?&?&?)]; [by left|right].
      split; [apply elem_of_cons; by right|done]. }
    destruct (OriginalTableColumns table) as [columns|] eqn:Hcols; [|done].
    destruct (Ordinals columns !! field) as [ordinal|] eqn:Hord; [|done].
    destruct (IH _ _ Hrun _ _ Hf) as [Hin|(?&?&?)].
    + destruct (decide (field = f)) as [->|Hne].
      * rewrite lookup_insert_eq in Hin. right.
        split; [apply elem_of_cons; by left|]. split; [done|].
        exists columns. split; [done|]. congruence.
      * rewrite lookup_insert_ne in Hin by done. by left.
    + right. split; [apply elem_of_cons; by right|done].
Qed.

(** The compiler stops at the first identifier it cannot resolve, provided
    the fields mapped so far are columns of the table. *)
Lemma resolveFields_unknown table columns fields :
  OriginalTableColumns table = Some columns →
  ∀ fieldsMap unknown,
    (∀ f, is_Some (fieldsMap !! f) → is_Some (Ordinals columns !! f)) →
    find (unknownField columns) fields = Some unknown →
    resolveFields table fields fieldsMap
    = Return (inr (ErrBadWhere (TableSchema table) (TableName table) unknown
                     (Ordinals columns))).
Proof.
  intros Hcols. induction fields as [|field rest IH];
    intros fm unknown Hinv Hfind; simpl in *; [done|].
  unfold unknownField in Hfind at 1.
  destruct (isReserved (ToLower field)) eqn:Hres; simpl in Hfind.
  { by apply IH. }
  rewrite Hcols.
  destruct (Ordinals columns !! field) as [ordinal|] eqn:Hord.
  - rewrite bool_decide_eq_false_2 in Hfind by done.
    destruct (fm !! field); [by apply IH|].
    apply IH; [|done]. intros f [k Hk].
    destruct (decide (field = f)) as [->|Hne]; [by eexists|].
    rewrite lookup_insert_ne in Hk by done. apply Hinv. by eexists.
  - rewrite bool_decide_eq_true_2 in Hfind by done. simplify_eq.
    destruct (fm !! unknown) as [k|] eqn:Hfm; [|done].
    destruct (Hinv unknown) as [? ?]; [by eexists|congruence].
Qed.

(** With every identifier resolvable the compiler fills the map. *)
Lemma resolveFields_known table columns fields :
  OriginalTableColumns table = Some columns →
  ∀ fieldsMap,
    find (unknownField columns) fields = None →
    ∃ fieldsMap', resolveFields table fields fieldsMap = Return (inl fieldsMap').
Proof.
  intros Hcols. induction fields as [|field rest IH];
    intros fm Hfind; simpl in *; [by eexists|].
  unfold unknownField in Hfind at 1.
  destruct (isReserved (ToLower field)) eqn:Hres; simpl in Hfind.
  { by apply IH. }
  rewrite Hcols.
  destruct (Ordinals columns !! field) as [ordinal|] eqn:Hord.
  - rewrite bool_decide_eq_false_2 in Hfind by done.
    destruct (fm !! field); by apply IH.
  - by rewrite bool_decide_eq_true_2 in Hfind by done.
Qed.

(** Reserved literals alone never consult the column list. *)
Lemma resolveFields_reserved table fields fieldsMap :
  Forall (fun f => isReserved (ToLower f) = true) fields →
  resolveFields table fields fieldsMap = Return (inl fieldsMap).
Proof.
  induction 1 as [|field rest Hres _ IH]; simpl; [done|]. by rewrite Hres.
Qed.

(** ** The evaluator only reads *)

Section Evaluator.
Context `{ExprLib}.

Ltac run := unfold bind, load, index, deref, ret, raise; simpl.

Lemma index_frame {A} (l : list A) idx s : snd (index l idx s) = s.
Proof. run. repeat case_match; done. Qed.

Lemma columnValue_frame idx s : snd (columnValue idx s) = s.
Proof.
  unfold columnValue. run.
  repeat (case_match; simpl in *; simplify_eq; try done).
Qed.

Lemma columnValue_run idx s :
  columnValue idx s = (fst (columnValue idx s), s).
Proof.
  rewrite <- (columnValue_frame idx s) at 3. apply surjective_pairing.
Qed.

Lemma bindFields_cons field idx rest m s :
  bindFields ((field, idx) :: rest) m s
  = match fst (columnValue idx s) with
    | Return (inl value) => bindFields rest (<[field := value]> m) s
    | Return (inr err) => (Return (inr err), s)
    | Panic p => (Panic p, s)
    end.
Proof.
  simpl. unfold bind at 1. rewrite (columnValue_run idx s). simpl.
  by destruct (fst (columnValue idx s)) as [[?|?]|?].
Qed.

Lemma bindFields_frame entries : ∀ m s, snd (bindFields entries m s) = s.
Proof.
  induction entries as [|[field idx] rest IH]; intros m s; [done|].
  rewrite bindFields_cons.
  destruct (fst (columnValue idx s)) as [[?|?]|?]; [apply IH|done..].
Qed.

Lemma WhereTrue_frame entries s : snd (WhereTrue entries s) = s.
Proof.
  unfold WhereTrue, bind at 1.
  pose proof (bindFields_frame entries ∅ s) as Hs.
  destruct (bindFields entries ∅ s) as [[[m|err]|p] s']; simpl in *; subst;
    try done.
  run. repeat case_match; done.
Qed.

(** The result of a call, read off the loop and the evaluation. *)
Lemma callWhereTrue_unfold t row entries :
  callWhereTrue t row entries
  = match callBindFields t row entries with
    | Return (inl m) =>
        match Eval m (Ast (WhereCtx t)) with
        | None => Return (false, Some ErrCannotEval)
        | Some (VBool r) => Return (r, None)
        | Some _ => Return (false, Some ErrNotBool)
        end
    | Return (inr err) => Return (false, Some err)
    | Panic p => Panic p
    end.
Proof.
  unfold callWhereTrue, callBindFields, WhereTrue, bind at 1.
  set (s := {| this := t; values := row |}).
  pose proof (bindFields_frame entries ∅ s) as Hs.
  destruct (bindFields entries ∅ s) as [[[m|err]|p] s']; simpl in *; subst;
    try done.
  run. repeat case_match; done.
Qed.

End Evaluator.

(** ** One ordinal: the value bound or the error *)

Section ColumnValue.
Context `{ExprLib}.

Implicit Types (s : Store) (idx : Z).

Ltac run := unfold bind, load, index, deref, ret, raise; simpl.

Local Abbreviation nColsOf s := (Z.of_nat (length (AbstractValues (values s)))).

Lemma index_ok {A} (l : list A) idx s x :
  0 <= idx → l !! Z.to_nat idx = Some x → index l idx s = (Return x, s).
Proof.
  intros Hidx Hx. run. rewrite Hx.
  apply lookup_lt_Some in Hx.
  destruct (idx <? 0) eqn:?; [lia|].
  destruct (Z.of_nat (length l) <=? idx) eqn:?; [lia|done].
Qed.

Lemma index_inv {A} (l : list A) idx s x s' :
  index l idx s = (Return x, s') →
  0 <= idx < Z.of_nat (length l) ∧ l !! Z.to_nat idx = Some x ∧ s' = s.
Proof.
  run. destruct (idx <? 0) eqn:?; [done|].
  destruct (Z.of_nat (length l) <=? idx) eqn:?; [done|]. simpl.
  destruct (l !! Z.to_nat idx) eqn:?; [|done].
  intros; simplify_eq. split; [lia|done].
Qed.

Lemma columnValue_short idx s :
  nColsOf s <= idx →
  fst (columnValue idx s)
  = Return (inr (ErrNotEnoughColumns (nColsOf s) idx)).
Proof.
  intros Hshort. unfold columnValue, bind at 1, load at 1.
  destruct (nColsOf s <=? idx) eqn:?; [done|lia].
Qed.

(** The coercion applied to a raw value that is in the row. *)
Lemma columnValue_at idx s rawValue :
  0 <= idx →
  AbstractValues (values s) !! Z.to_nat idx = Some rawValue →
  fst (columnValue idx s)
  = match rawValue with
    | VNil => Return (inl VNil)
    | _ =>
        match OriginalTableColumns (TableOf (this s)) with
        | None => Panic NilPointerDereference
        | Some columnList =>
            match Columns columnList !! Z.to_nat idx with
            | None =>
                Panic (IndexOutOfRange idx
                         (Z.of_nat (length (Columns columnList))))
            | Some column =>
                match ColType column with
                | TextColumnType =>
                    match rawValue with
                    | VBytes bs =>
                        Return (inl (VString (string_of_list_byte bs)))
                    | _ => Return (inr (ErrExpectBytes (type_name rawValue)))
                    end
                | OtherColumnType _ => Return (inl rawValue)
                end
            end
        end
    end.
Proof.
  intros Hidx Hraw. pose proof (lookup_lt_Some _ _ _ Hraw) as Hlt.
  unfold columnValue, bind at 1, load at 1.
  destruct (nColsOf s <=? idx) eqn:?; [lia|].
  unfold bind at 1. rewrite (index_ok _ _ _ _ Hidx Hraw).
  assert (∀ k : Column → M (GoValue + error),
    fst ((do originalTableColumns <-
             load (fun s => OriginalTableColumns (TableOf (this s)));;
          do columnList <- deref originalTableColumns;;
          do column <- index (Columns columnList) idx;;
          k column) s)
    = match OriginalTableColumns (TableOf (this s)) with
      | None => Panic NilPointerDereference
      | Some columnList =>
          match Columns columnList !! Z.to_nat idx with
          | None =>
              Panic (IndexOutOfRange idx
                       (Z.of_nat (length (Columns columnList))))
          | Some column => fst (k column s)
          end
      end) as Hcol.
  { intros k. unfold bind at 1, load at 1. unfold bind at 1.
    destruct (OriginalTableColumns (TableOf (this s))) as [columnList|];
      [|done]. simpl. unfold bind at 1.
    destruct (Columns columnList !! Z.to_nat idx) as [column|] eqn:Hc.
    - by rewrite (index_ok _ _ _ _ Hidx Hc).
    - run. apply lookup_ge_None in Hc.
      destruct (idx <? 0) eqn:?; [lia|].
      destruct (Z.of_nat (length (Columns columnList)) <=? idx) eqn:?;
        [done|lia]. }
  destruct rawValue; [done|..]; rewrite Hcol;
    repeat case_match; done.
Qed.

(** Outside the row on the low side the read panics. *)
Lemma columnValue_negative idx s :
  idx < 0 →
  fst (columnValue idx s) = Panic (IndexOutOfRange idx (nColsOf s)).
Proof.
  intros Hneg. unfold columnValue, bind at 1, load at 1.
  destruct (nColsOf s <=? idx) eqn:Hle.
  { apply Z.leb_le in Hle. lia. }
  unfold bind at 1. run. destruct (idx <? 0) eqn:?; [done|lia].
Qed.

(** The three ranges an ordinal can fall in. *)
Lemma columnValue_cases idx s :
  (nColsOf s <= idx)
  ∨ (idx < 0)
  ∨ (0 <= idx < nColsOf s
     ∧ ∃ rawValue, AbstractValues (values s) !! Z.to_nat idx = Some rawValue).
Proof.
  destruct (Z_le_gt_dec (nColsOf s) idx); [by left|right].
  destruct (Z_lt_le_dec idx 0); [by left|right]. split; [lia|].
  apply lookup_lt_is_Some_2. lia.
Qed.

End ColumnValue.

(** ** The loop over the field map *)

Section BindFields.
Context `{ExprLib}.

Implicit Types (s : Store) (m : gmap string GoValue)
  (entries : list (string * Z)).

(** A completed loop has bound every entry it visited. *)
Lemma bindFields_inl entries :
  ∀ m s m',
    fst (bindFields entries m s) = Return (inl m') →
    NoDup entries.*1 →
    (∀ field idx, (field, idx) ∈ entries →
       ∃ value, fst (columnValue idx s) = Return (inl value)
                ∧ m' !! field = Some value)
    ∧ (∀ field, field ∉ entries.*1 → m' !! field = m !! field).
Proof.
  induction entries as [|[field0 idx0] rest IH]; intros m s m' Hrun Hnodup.
  - simpl in Hrun. simplify_eq. split; [|done].
    intros ?? Hin. by apply elem_of_nil in Hin.
  - rewrite bindFields_cons in Hrun.
    destruct (fst (columnValue idx0 s)) as [[value0|?]|?] eqn:Hcol;
      [|done..].
    rewrite fmap_cons in Hnodup. apply NoDup_cons in Hnodup as [Hfresh Hnodup].
    destruct (IH _ _ _ Hrun Hnodup) as [Hbound Hkept]. split.
    + intros field idx [Heq|Hin]%elem_of_cons.
      * simplify_eq. exists value0. split; [done|].
        rewrite (Hkept field0 Hfresh). apply lookup_insert_eq.
      * by apply Hbound.
    + intros field Hnotin. rewrite fmap_cons in Hnotin.
      apply not_elem_of_cons in Hnotin as [Hne Hnotin].
      rewrite (Hkept field Hnotin). by apply lookup_insert_ne.
Qed.

(** An entry whose value cannot be bound stops every run of the loop. *)
Lemma bindFields_stops entries field idx :
  ∀ m s,
    (field, idx) ∈ entries →
    (∀ value, fst (columnValue idx s) ≠ Return (inl value)) →
    ∀ m', fst (bindFields entries m s) ≠ Return (inl m').
Proof.
  induction entries as [|[field0 idx0] rest IH]; intros m s Hin Hbad m' Hrun.
  - by apply elem_of_nil in Hin.
  - rewrite bindFields_cons in Hrun.
    destruct (fst (columnValue idx0 s)) as [[value0|?]|?] eqn:Hcol;
      [|done..].
    apply elem_of_cons in Hin as [Heq|Hin].
    + simplify_eq. by eapply Hbad.
    + by eapply IH.
Qed.

(** An error returned by the loop is the error of one of its entries. *)
Lemma bindFields_inr entries :
  ∀ m s err,
    fst (bindFields entries m s) = Return (inr err) →
    ∃ field idx, (field, idx) ∈ entries
                 ∧ fst (columnValue idx s) = Return (inr err).
Proof.
  induction entries as [|[field0 idx0] rest IH]; intros m s err Hrun.
  - done.
  - rewrite bindFields_cons in Hrun.
    destruct (fst (columnValue idx0 s)) as [[value0|err0]|?] eqn:Hcol.
    + destruct (IH _ _ _ Hrun) as (field & idx & Hin & Herr).
      exists field, idx. split; [|done]. apply elem_of_cons. by right.
    + simpl in Hrun. simplify_eq. exists field0, idx0.
      split; [|done]. apply elem_of_cons. by left.
    + done.
Qed.

(** Without a panicking entry the loop returns. *)
Lemma bindFields_returns entries :
  ∀ m s,
    (∀ field idx, (field, idx) ∈ entries →
       ∃ r, fst (columnValue idx s) = Return r) →
    ∃ r, fst (bindFields entries m s) = Return r.
Proof.
  induction entries as [|[field0 idx0] rest IH]; intros m s Hall.
  - by eexists.
  - rewrite bindFields_cons.
    destruct (Hall field0 idx0) as [r Hr]; [apply elem_of_cons; by left|].
    rewrite Hr. destruct r as [value0|err0]; [|by eexists].
    apply IH. intros field idx Hin. apply (Hall field idx).
    apply elem_of_cons. by right.
Qed.

(** With every entry bindable the loop completes. *)
Lemma bindFields_completes entries :
  ∀ m s,
    (∀ field idx, (field, idx) ∈ entries →
       ∃ value, fst (columnValue idx s) = Return (inl value)) →
    ∃ m', fst (bindFields entries m s) = Return (inl m').
Proof.
  induction entries as [|[field0 idx0] rest IH]; intros m s Hall.
  - by eexists.
  - rewrite bindFields_cons.
    destruct (Hall field0 idx0) as [v Hv]; [apply elem_of_cons; by left|].
    rewrite Hv. apply IH. intros field idx Hin. apply (Hall field idx).
    apply elem_of_cons. by right.
Qed.

(** What a visiting order shares with the map it ranges over. *)
Lemma rangeOrder_elem fieldsMap entries field idx :
  rangeOrder fieldsMap entries →
  (field, idx) ∈ entries ↔ fieldsMap !! field = Some idx.
Proof.
  unfold rangeOrder. intros ->. apply elem_of_map_to_list.
Qed.

Lemma rangeOrder_NoDup fieldsMap entries :
  rangeOrder fieldsMap entries → NoDup entries.*1.
Proof.
  unfold rangeOrder. intros ->. apply NoDup_fst_map_to_list.
Qed.

Lemma rangeOrder_fst fieldsMap entries field :
  rangeOrder fieldsMap entries →
  field ∈ entries.*1 ↔ is_Some (fieldsMap !! field).
Proof.
  intros Horder. rewrite list_elem_of_fmap. split.
  - intros ([f i] & -> & Hin). simpl.
    exists i. by apply (rangeOrder_elem _ _ _ _ Horder).
  - intros [i Hi]. exists (field, i). split; [done|].
    by apply (rangeOrder_elem _ _ _ _ Horder).
Qed.

(** The environment of a completed loop does not depend on the order. *)
Lemma callBindFields_order t row entries1 entries2 m1 m2 :
  rangeOrder (FieldsMap (WhereCtx t)) entries1 →
  rangeOrder (FieldsMap (WhereCtx t)) entries2 →
  callBindFields t row entries1 = Return (inl m1) →
  callBindFields t row entries2 = Return (inl m2) →
  m1 = m2.
Proof.
  intros Ho1 Ho2 Hr1 Hr2. unfold callBindFields in *.
  destruct (bindFields_inl _ _ _ _ Hr1 (rangeOrder_NoDup _ _ Ho1))
    as [Hb1 Hk1].
  destruct (bindFields_inl _ _ _ _ Hr2 (rangeOrder_NoDup _ _ Ho2))
    as [Hb2 Hk2].
  apply map_eq. intros field.
  destruct (FieldsMap (WhereCtx t) !! field) as [idx|] eqn:Hfield.
  - destruct (Hb1 field idx) as (v1 & Hv1 & ->);
      [by apply (rangeOrder_elem _ _ _ _ Ho1)|].
    destruct (Hb2 field idx) as (v2 & Hv2 & ->);
      [by apply (rangeOrder_elem _ _ _ _ Ho2)|].
    congruence.
  - rewrite Hk1, Hk2; [done|..];
      rewrite rangeOrder_fst by done; rewrite Hfield; by intros [? ?].
Qed.

(** A completed loop in one order completes in every order. *)
Lemma callBindFields_any_order t row entries1 entries2 m :
  rangeOrder (FieldsMap (WhereCtx t)) entries1 →
  rangeOrder (FieldsMap (WhereCtx t)) entries2 →
  callBindFields t row entries1 = Return (inl m) →
  callBindFields t row entries2 = Return (inl m).
Proof.
  intros Ho1 Ho2 Hr1.
  destruct (bindFields_inl _ _ _ _ Hr1 (rangeOrder_NoDup _ _ Ho1))
    as [Hb1 _].
  destruct (bindFields_completes entries2 ∅ {| this := t; values := row |})
    as [m2 Hr2].
  { intros field idx Hin.
    apply (rangeOrder_elem _ _ _ _ Ho2), (rangeOrder_elem _ _ _ _ Ho1) in Hin.
    destruct (Hb1 _ _ Hin) as (v & Hv & _). by exists v. }
  rewrite <- (callBindFields_order _ _ _ _ _ _ Ho1 Ho2 Hr1 Hr2) in Hr2.
  exact Hr2.
Qed.

End BindFields.


(** ** Sanity checks on the samples *)

Example ageWhereCtx_compiled :
  @NewWhereCtx MiniQL.lib "age > 30" peopleTable = Return (inl ageWhereCtx).
Proof. reflexivity. Qed.

Example bioWhereCtx_compiled :
  @NewWhereCtx MiniQL.lib "bio = 'x' and age > 30" peopleTable
  = Return (inl bioWhereCtx).
Proof. reflexivity. Qed.

Example age_31_accepted :
  callWhereTrue (NewTableContext peopleTable ageWhereCtx)
    {| AbstractValues := [VInt 31; VNil] |} (map_to_list (FieldsMap ageWhereCtx))
  = Return (true, None).
Proof. reflexivity. Qed.

Example age_30_rejected :
  callWhereTrue (NewTableContext peopleTable ageWhereCtx)
    {| AbstractValues := [VInt 30; VNil] |} (map_to_list (FieldsMap ageWhereCtx))
  = Return (false, None).
Proof. reflexivity. Qed.

Example bio_bytes_accepted :
  callWhereTrue (NewTableContext peopleTable bioWhereCtx)
    {| AbstractValues := [VInt 31; VBytes bytes_x] |}
    (map_to_list (FieldsMap bioWhereCtx))
  = Return (true, None).
Proof. reflexivity. Qed.

Example malformed_rejected :
  @NewWhereCtx MiniQL.lib "age > " peopleTable
  = Return (inr (ErrParse "malformed expression")).
Proof. reflexivity. Qed.

(** ** Properties of the compiler *)

(** C8.  A compiled predicate binds only columns of its table, each to the
    ordinal the table's [Ordinals] map gives it, and never binds the
    reserved literals [true] and [false], whatever their letter case. *)
Theorem C8_FieldsMap_within_Ordinals `{ExprLib} :
  ∀ (where_ : string) (table : Table) (whereCtx : WhereContext)
    (field : string) (idx : Z),
    NewWhereCtx where_ table = Return (inl whereCtx) →
    FieldsMap whereCtx !! field = Some idx →
    (∃ columns, OriginalTableColumns table = Some columns
                ∧ Ordinals columns !! field = Some idx)
    ∧ ToLower field ≠ "true"
    ∧ ToLower field ≠ "false"
    ∧ ∃ ast, ParseExpression where_ = inl ast
             ∧ field ∈ FindAllIdentityField ast.
Proof.
  intros where_ table whereCtx field idx Hnew Hfield.
  unfold NewWhereCtx in Hnew.
  destruct (ParseExpression where_) as [ast|msg] eqn:Hparse; [|done].
  destruct (resolveFields table (FindAllIdentityField ast) ∅)
    as [[fieldsMap|err]|p] eqn:Hres; [|done..].
  simplify_eq. simpl in Hfield.
  destruct (resolveFields_sound _ _ _ _ Hres _ _ Hfield)
    as [Hempty|(Hin & Hreserved & Hcols)].
  { by rewrite lookup_empty in Hempty. }
  unfold isReserved in Hreserved.
  apply orb_false_iff in Hreserved as [Htrue Hfalse].
  apply bool_decide_eq_false_1 in Htrue.
  apply bool_decide_eq_false_1 in Hfalse.
  repeat split; [done..|]. by exists ast.
Qed.

Lemma C8_FieldsMap_within_Ordinals_witness :
  FieldsMap bioWhereCtx !! "bio" = Some 1
  ∧ (∃ columns, OriginalTableColumns peopleTable = Some columns
                ∧ Ordinals columns !! "bio" = Some 1)
  ∧ ToLower "bio" ≠ "true".
Proof.
  split; [reflexivity|].
  destruct (C8_FieldsMap_within_Ordinals (H := MiniQL.lib)
              "bio = 'x' and age > 30" peopleTable bioWhereCtx "bio" 1)
    as (Hcols & Htrue & _); [reflexivity|reflexivity|].
  split; [exact Hcols|exact Htrue].
Defined.

(** C7, as the code has it.  The default flag of a compiled predicate is set
    exactly when the lower-cased expression text is ["true"]; the text is
    not trimmed. *)
Theorem C7_IsDefault_iff_lowercase_true `{ExprLib} :
  ∀ (where_ : string) (table : Table) (whereCtx : WhereContext),
    NewWhereCtx where_ table = Return (inl whereCtx) →
    IsDefault whereCtx = true ↔ ToLower where_ = "true".
Proof.
  intros where_ table whereCtx Hnew. unfold NewWhereCtx in Hnew.
  destruct (ParseExpression where_) as [ast|msg]; [|done].
  destruct (resolveFields table (FindAllIdentityField ast) ∅)
    as [[fieldsMap|err]|p]; [|done..].
  simplify_eq. simpl. apply bool_decide_eq_true.
Qed.

Lemma C7_IsDefault_iff_lowercase_true_witness :
  ∃ whereCtx : @WhereContext MiniQL.lib,
    NewWhereCtx "TRUE" (NewTable "shop" "orders") = Return (inl whereCtx)
    ∧ (IsDefault whereCtx = true ↔ ToLower "TRUE" = "true").
Proof.
  eexists. split; [reflexivity|].
  apply (C7_IsDefault_iff_lowercase_true (H := MiniQL.lib)
           "TRUE" (NewTable "shop" "orders")).
  reflexivity.
Defined.

(** C7, the claim as stated fails: the expression [" true "] is accepted,
    its trimmed lower-cased text is ["true"], and the default flag is not
    set. *)
Lemma C7_trimmed_true_not_default :
  ToLower (spec_trimSpace " true ") = "true"
  ∧ ∃ whereCtx : @WhereContext MiniQL.lib,
      NewWhereCtx " true " (NewTable "shop" "orders") = Return (inl whereCtx)
      ∧ IsDefault whereCtx = false.
Proof.
  split; [reflexivity|]. eexists. split; reflexivity.
Qed.

(** C6.  When the expression mentions an identifier that is neither a
    reserved literal nor a key of the table's [Ordinals], compilation fails
    with the unknown-field error.  The error carries the schema and the name
    of the table, the whole [Ordinals] map, and the first such identifier in
    the order [FindAllIdentityField] lists them, which is the given one when
    no other identifier is unknown. *)
Theorem C6_unknown_field_error `{ExprLib} :
  ∀ (where_ : string) (table : Table) (columns : ColumnList) (ast : Node)
    (field : string),
    OriginalTableColumns table = Some columns →
    ParseExpression where_ = inl ast →
    field ∈ FindAllIdentityField ast →
    isReserved (ToLower field) = false →
    Ordinals columns !! field = None →
    ∃ unknown,
      NewWhereCtx where_ table
      = Return (inr (ErrBadWhere (TableSchema table) (TableName table)
                       unknown (Ordinals columns)))
      ∧ find (unknownField columns) (FindAllIdentityField ast) = Some unknown
      ∧ unknown ∈ FindAllIdentityField ast
      ∧ isReserved (ToLower unknown) = false
      ∧ Ordinals columns !! unknown = None
      ∧ ((∀ other, other ∈ FindAllIdentityField ast →
            unknownField columns other = true → other = field) →
         unknown = field).
Proof.
  intros where_ table columns ast field Hcols Hparse Hin Hres Hord.
  destruct (find (unknownField columns) (FindAllIdentityField ast))
    as [unknown|] eqn:Hfind.
  - exists unknown. pose proof (find_some _ _ Hfind) as [Hin' Hunk].
    apply list_elem_of_In in Hin'.
    pose proof Hunk as Hunk'. unfold unknownField in Hunk'.
    apply andb_true_iff in Hunk' as [Hres' Hord'].
    apply negb_true_iff in Hres'. apply bool_decide_eq_true_1 in Hord'.
    split; [|repeat split; [done..|by intros Honly; apply Honly]].
    unfold NewWhereCtx. rewrite Hparse. simpl.
    rewrite (resolveFields_unknown _ _ _ Hcols ∅ unknown); [done| |done].
    intros f [k Hk]. by rewrite lookup_empty in Hk.
  - exfalso. apply list_elem_of_In in Hin.
    pose proof (find_none _ _ Hfind _ Hin) as Hknown.
    unfold unknownField in Hknown. rewrite Hres in Hknown. simpl in Hknown.
    by rewrite bool_decide_eq_true_2 in Hknown.
Qed.

Lemma C6_unknown_field_error_witness :
  @NewWhereCtx MiniQL.lib "age > 30 and status = 'x'" peopleTable
  = Return (inr (ErrBadWhere "shop" "people" "status"
                   {[ "age" := 0; "bio" := 1 ]})).
Proof.
  destruct (C6_unknown_field_error (H := MiniQL.lib)
              "age > 30 and status = 'x'" peopleTable
              {| Columns :=
                   [ {| Name := "age"; ColType := OtherColumnType 0 |};
                     {| Name := "bio"; ColType := TextColumnType |} ];
                 Ordinals := {[ "age" := 0; "bio" := 1 ]} |}
              (MiniQL.NLogical MiniQL.LogAnd
                 (MiniQL.NCompare MiniQL.CmpGt (MiniQL.NIdentity "age")
                    (MiniQL.NLiteral (VInt 30)))
                 (MiniQL.NCompare MiniQL.CmpEq (MiniQL.NIdentity "status")
                    (MiniQL.NLiteral (VString "x"))))
              "status")
    as (unknown & Herr & Hfind & _).
  - reflexivity.
  - reflexivity.
  - simpl. apply elem_of_cons. right. apply elem_of_cons. by left.
  - reflexivity.
  - reflexivity.
  - vm_compute in Hfind. injection Hfind as <-. exact Herr.
Defined.

(** The two expressions of the case-sensitivity property, as parsed. *)
Lemma parse_status_lower :
  MiniQL.parseExpression "status = 'x'"
  = inl (MiniQL.NCompare MiniQL.CmpEq (MiniQL.NIdentity "status")
           (MiniQL.NLiteral (VString "x"))).
Proof. reflexivity. Qed.

Lemma parse_status_capital :
  MiniQL.parseExpression "Status = 'x'"
  = inl (MiniQL.NCompare MiniQL.CmpEq (MiniQL.NIdentity "Status")
           (MiniQL.NLiteral (VString "x"))).
Proof. reflexivity. Qed.

(** C1, as the code has it.  Identifiers are looked up in [Ordinals] by
    their exact text.  For a table with a column [status], the expression
    [status = 'x'] compiles and binds [status] to that column's ordinal; the
    expression [Status = 'x'] compiles only when [Ordinals] has the key
    [Status] itself, binding it to the ordinal under that key, and otherwise
    fails with the unknown-field error naming [Status]. *)
Theorem C1_field_resolution_exact_text :
  ∀ (table : Table) (columns : ColumnList) (ordinal : Z),
    OriginalTableColumns table = Some columns →
    Ordinals columns !! "status" = Some ordinal →
    (∃ whereCtx : @WhereContext MiniQL.lib,
       NewWhereCtx "status = 'x'" table = Return (inl whereCtx)
       ∧ FieldsMap whereCtx = {[ "status" := ordinal ]})
    ∧ match Ordinals columns !! "Status" with
      | Some ordinal' =>
          ∃ whereCtx : @WhereContext MiniQL.lib,
            NewWhereCtx "Status = 'x'" table = Return (inl whereCtx)
            ∧ FieldsMap whereCtx = {[ "Status" := ordinal' ]}
      | None =>
          @NewWhereCtx MiniQL.lib "Status = 'x'" table
          = Return (inr (ErrBadWhere (TableSchema table) (TableName table)
                           "Status" (Ordinals columns)))
      end.
Proof.
  intros table columns ordinal Hcols Hstatus. split.
  - eexists. unfold NewWhereCtx.
    change (ParseExpression "status = 'x'")
      with (MiniQL.parseExpression "status = 'x'").
    rewrite parse_status_lower. simpl.
    change (isReserved "status") with false. simpl.
    rewrite lookup_empty, Hcols, Hstatus. split; reflexivity.
  - unfold NewWhereCtx.
    change (ParseExpression "Status = 'x'")
      with (MiniQL.parseExpression "Status = 'x'").
    rewrite parse_status_capital. simpl.
    change (isReserved "status") with false. simpl.
    rewrite lookup_empty, Hcols.
    destruct (Ordinals columns !! "Status") as [ordinal'|]; [|done].
    eexists. split; reflexivity.
Qed.

Lemma C1_field_resolution_exact_text_witness :
  (∃ whereCtx : @WhereContext MiniQL.lib,
     NewWhereCtx "status = 'x'" ordersTable = Return (inl whereCtx)
     ∧ FieldsMap whereCtx = {[ "status" := 0 ]})
  ∧ @NewWhereCtx MiniQL.lib "Status = 'x'" ordersTable
    = Return (inr (ErrBadWhere "shop" "orders" "Status" {[ "status" := 0 ]})).
Proof.
  exact (C1_field_resolution_exact_text ordersTable
           {| Columns := [ {| Name := "status"; ColType := OtherColumnType 0 |} ];
              Ordinals := {[ "status" := 0 ]} |}
           0 eq_refl eq_refl).
Defined.

(** C1, the claim as stated fails: [ordersTable] has the column [status],
    the lower-case expression compiles and binds it to ordinal 0, and the
    capitalised expression does not compile. *)
Lemma C1_capitalised_field_rejected :
  (∃ columns, OriginalTableColumns ordersTable = Some columns
              ∧ Ordinals columns !! "status" = Some 0)
  ∧ (∃ whereCtx : @WhereContext MiniQL.lib,
       NewWhereCtx "status = 'x'" ordersTable = Return (inl whereCtx)
       ∧ FieldsMap whereCtx !! "status" = Some 0)
  ∧ @NewWhereCtx MiniQL.lib "Status = 'x'" ordersTable
    = Return (inr (ErrBadWhere "shop" "orders" "Status" {[ "status" := 0 ]}))
  ∧ ¬ ∃ whereCtx : @WhereContext MiniQL.lib,
        NewWhereCtx "Status = 'x'" ordersTable = Return (inl whereCtx).
Proof.
  split; [eexists; split; reflexivity|].
  split; [eexists; split; reflexivity|].
  split; [reflexivity|]. intros [whereCtx Hnew]. discriminate Hnew.
Qed.

(** ** Properties of the table context *)

(** C10.  A new table context has its definition-changed flag cleared, and
    holds the table and the compiled predicate it was given. *)
Theorem C10_NewTableContext_flag_cleared `{ExprLib} :
  ∀ (table : Table) (whereCtx : WhereContext),
    DefChangedSent (NewTableContext table whereCtx) = false
    ∧ TableOf (NewTableContext table whereCtx) = table
    ∧ WhereCtx (NewTableContext table whereCtx) = whereCtx.
Proof. intros table whereCtx. repeat split. Qed.

(** C9.  A call of [WhereTrue] leaves the store as it found it, whether it
    returns a decision, returns an error or panics: the table context, with
    the table's counters, the definition-changed flag and the compiled
    predicate, and the row are unchanged. *)
Theorem C9_WhereTrue_pure_observer `{ExprLib} :
  ∀ (entries : list (string * Z)) (s : Store),
    let s' := snd (WhereTrue entries s) in
    s' = s
    ∧ this s' = this s
    ∧ Counter (TableOf (this s')) = Counter (TableOf (this s))
    ∧ Iteration (TableOf (this s')) = Iteration (TableOf (this s))
    ∧ DefChangedSent (this s') = DefChangedSent (this s)
    ∧ WhereCtx (this s') = WhereCtx (this s)
    ∧ AbstractValues (values s') = AbstractValues (values s).
Proof.
  intros entries s s'. subst s'. by rewrite WhereTrue_frame.
Qed.

(** ** Properties of the evaluator *)

Section EvaluatorProperties.
Context `{ExprLib}.

Implicit Types (t : TableContext) (row : ColumnValues)
  (entries : list (string * Z)).

Local Abbreviation store t row := {| this := t; values := row |}.
Local Abbreviation nCols row := (Z.of_nat (length (AbstractValues row))).

(** What an error for one ordinal tells about the row. *)
Lemma columnValue_inr t row idx err :
  fst (columnValue idx (store t row)) = Return (inr err) →
  (nCols row <= idx ∧ err = ErrNotEnoughColumns (nCols row) idx)
  ∨ (0 <= idx < nCols row
     ∧ ∃ rawValue columns column,
         AbstractValues row !! Z.to_nat idx = Some rawValue
         ∧ rawValue ≠ VNil
         ∧ (∀ bs, rawValue ≠ VBytes bs)
         ∧ OriginalTableColumns (TableOf t) = Some columns
         ∧ Columns columns !! Z.to_nat idx = Some column
         ∧ ColType column = TextColumnType
         ∧ err = ErrExpectBytes (type_name rawValue)).
Proof.
  intros Hrun.
  destruct (columnValue_cases idx (store t row))
    as [Hshort|[Hneg|[Hrange [rawValue Hraw]]]]; simpl in *.
  - left. rewrite columnValue_short in Hrun by done. simpl in Hrun.
    split; [done|congruence].
  - by rewrite columnValue_negative in Hrun.
  - right. split; [done|]. destruct Hrange as [Hidx _].
    rewrite (columnValue_at idx (store t row) rawValue Hidx Hraw) in Hrun. simpl in Hrun.
    destruct rawValue; [done|..];
      (destruct (OriginalTableColumns (TableOf t)) as [columns|] eqn:Hcols;
         [|done];
       destruct (Columns columns !! Z.to_nat idx) as [column|] eqn:Hcol;
         [|done];
       destruct (ColType column) eqn:Hty; [|done];
       try done;
       simplify_eq; eexists _, columns, column; by repeat split).
Qed.

(** What a bound value for one ordinal tells about the row. *)
Lemma columnValue_inl t row idx value :
  fst (columnValue idx (store t row)) = Return (inl value) →
  0 <= idx < nCols row
  ∧ ∃ rawValue,
      AbstractValues row !! Z.to_nat idx = Some rawValue
      ∧ match rawValue with
        | VNil => value = VNil
        | _ =>
            ∃ columns column,
              OriginalTableColumns (TableOf t) = Some columns
              ∧ Columns columns !! Z.to_nat idx = Some column
              ∧ match ColType column with
                | TextColumnType =>
                    ∃ bs, rawValue = VBytes bs
                          ∧ value = VString (string_of_list_byte bs)
                | OtherColumnType _ => value = rawValue
                end
        end.
Proof.
  intros Hrun.
  destruct (columnValue_cases idx (store t row))
    as [Hshort|[Hneg|[Hrange [rawValue Hraw]]]]; simpl in *.
  - by rewrite columnValue_short in Hrun.
  - by rewrite columnValue_negative in Hrun.
  - split; [done|]. exists rawValue. split; [done|].
    destruct Hrange as [Hidx _].
    rewrite (columnValue_at idx (store t row) rawValue Hidx Hraw) in Hrun. simpl in Hrun.
    destruct rawValue; [congruence|..];
      (destruct (OriginalTableColumns (TableOf t)) as [columns|] eqn:Hcols;
         [|done];
       destruct (Columns columns !! Z.to_nat idx) as [column|] eqn:Hcol;
         [|done];
       exists columns, column; split; [done|]; split; [done|];
       destruct (ColType column) eqn:Hty; simplify_eq; try done;
       by eexists).
Qed.

(** An ordinal that indexes the column list never makes the read panic. *)
Lemma columnValue_covered t row idx columns :
  OriginalTableColumns (TableOf t) = Some columns →
  0 <= idx < Z.of_nat (length (Columns columns)) →
  ∃ r, fst (columnValue idx (store t row)) = Return r.
Proof.
  intros Hcols [Hidx Hlt].
  destruct (columnValue_cases idx (store t row))
    as [Hshort|[Hneg|[Hrange [rawValue Hraw]]]]; simpl in *.
  - rewrite columnValue_short by done. by eexists.
  - lia.
  - rewrite (columnValue_at idx (store t row) rawValue Hidx Hraw). simpl. rewrite Hcols.
    destruct (lookup_lt_is_Some_2 (Columns columns) (Z.to_nat idx))
      as [column ->]; [lia|].
    destruct rawValue, (ColType column); by eexists.
Qed.

(** Under [columnsCover] a call returns. *)
Lemma callBindFields_covered t row entries :
  rangeOrder (FieldsMap (WhereCtx t)) entries →
  columnsCover t →
  ∃ r, callBindFields t row entries = Return r.
Proof.
  intros Horder (columns & Hcols & Hcover).
  apply bindFields_returns. intros field idx Hin.
  apply (rangeOrder_elem _ _ _ _ Horder) in Hin.
  eapply columnValue_covered; [done|]. by eapply Hcover.
Qed.

(** A field whose value cannot be bound makes the call fail: never a
    decision, and an error whenever the ordinals index the column list. *)
Lemma callWhereTrue_unbindable t row entries field idx :
  rangeOrder (FieldsMap (WhereCtx t)) entries →
  FieldsMap (WhereCtx t) !! field = Some idx →
  (∀ value, fst (columnValue idx (store t row)) ≠ Return (inl value)) →
  (∀ decision, callWhereTrue t row entries ≠ Return (decision, None))
  ∧ (columnsCover t →
     ∃ err, callWhereTrue t row entries = Return (false, Some err)
            ∧ callBindFields t row entries = Return (inr err)).
Proof.
  intros Horder Hfield Hbad.
  apply (rangeOrder_elem _ _ _ _ Horder) in Hfield.
  pose proof (bindFields_stops entries field idx ∅ (store t row) Hfield Hbad)
    as Hstop.
  rewrite callWhereTrue_unfold. unfold callBindFields in *. split.
  - intros decision.
    destruct (fst (bindFields entries ∅ (store t row))) as [[m|err]|p];
      [by destruct (Hstop m)|done..].
  - intros Hcover.
    destruct (callBindFields_covered t row entries Horder Hcover) as [r Hr].
    unfold callBindFields in Hr. rewrite Hr.
    destruct r as [m|err]; [by destruct (Hstop m)|by exists err].
Qed.

End EvaluatorProperties.

(** The sample context for [bioWhereCtx] has its ordinals within the column
    list, and the visiting order of the samples is one Go may take. *)
Lemma bioContext_covered :
  columnsCover (NewTableContext peopleTable bioWhereCtx).
Proof.
  eexists. split; [reflexivity|]. intros field idx Hfield. simpl in *.
  apply lookup_insert_Some in Hfield as [[_ <-]|[_ Hfield]]; [lia|].
  apply lookup_singleton_Some in Hfield as [_ <-]. lia.
Qed.

Lemma rangeOrder_map_to_list (fieldsMap : gmap string Z) :
  rangeOrder fieldsMap (map_to_list fieldsMap).
Proof. unfold rangeOrder. reflexivity. Qed.

(** C2.  With a library in which the text [true] parses to a tree whose
    identifiers are reserved literals and which evaluates to the boolean
    true, a table whose filter is unset ([NewTable] sets it to ["true"]) or
    is the literal ["true"] compiles to a predicate with the default flag
    and an empty field map; [WhereTrue] then visits no entry, so it reads no
    column value, and returns true with no error for every row. *)
Theorem C2_default_filter_accepts_every_row `{ExprLib} :
  ∀ (ast : Node) (schemaName tableName : string) (table : Table),
    ParseExpression "true" = inl ast →
    Forall (fun f => isReserved (ToLower f) = true) (FindAllIdentityField ast) →
    Eval ∅ ast = Some (VBool true) →
    Where table = "true" →
    Where (NewTable schemaName tableName) = "true"
    ∧ ∃ whereCtx,
        NewWhereCtx (Where table) table = Return (inl whereCtx)
        ∧ IsDefault whereCtx = true
        ∧ FieldsMap whereCtx = ∅
        ∧ ∀ (row : ColumnValues) (entries : list (string * Z)),
            rangeOrder (FieldsMap whereCtx) entries →
            entries = []
            ∧ callWhereTrue (NewTableContext table whereCtx) row entries
              = Return (true, None).
Proof.
  intros ast schemaName tableName table Hparse Hreserved Heval Hwhere.
  split; [reflexivity|]. rewrite Hwhere. unfold NewWhereCtx.
  rewrite Hparse. simpl. rewrite (resolveFields_reserved _ _ _ Hreserved).
  eexists. split; [reflexivity|]. simpl. split; [reflexivity|].
  split; [reflexivity|]. intros row entries Horder.
  unfold rangeOrder in Horder. rewrite map_to_list_empty in Horder.
  apply Permutation_nil_r in Horder. subst entries. split; [reflexivity|].
  rewrite callWhereTrue_unfold. unfold callBindFields. simpl.
  by rewrite Heval.
Qed.

Lemma C2_default_filter_accepts_every_row_witness :
  ∃ whereCtx : @WhereContext MiniQL.lib,
    NewWhereCtx (Where (NewTable "shop" "orders")) (NewTable "shop" "orders")
    = Return (inl whereCtx)
    ∧ callWhereTrue (NewTableContext (NewTable "shop" "orders") whereCtx)
        {| AbstractValues := [VInt 7; VNil] |} []
      = Return (true, None).
Proof.
  destruct (C2_default_filter_accepts_every_row (H := MiniQL.lib)
              (MiniQL.NIdentity "true") "shop" "orders"
              (NewTable "shop" "orders"))
    as (_ & whereCtx & Hnew & _ & Hempty & Hcall).
  - reflexivity.
  - simpl. constructor; [reflexivity|constructor].
  - reflexivity.
  - reflexivity.
  - exists whereCtx. split; [exact Hnew|].
    apply (Hcall {| AbstractValues := [VInt 7; VNil] |} []).
    unfold rangeOrder. rewrite Hempty. rewrite map_to_list_empty. reflexivity.
Defined.

(** ** The loop in a given visiting order *)

Section VisitingOrder.
Context `{ExprLib}.

Implicit Types (t : TableContext) (row : ColumnValues)
  (entries : list (string * Z)).

Local Abbreviation store t row := {| this := t; values := row |}.
Local Abbreviation nCols row := (Z.of_nat (length (AbstractValues row))).

(** The loop body binds exactly the value the specification describes. *)
Lemma columnValue_bound t row idx value :
  fst (columnValue idx (store t row)) = Return (inl value)
  ↔ spec_boundValue t row idx = Some value.
Proof.
  unfold spec_boundValue.
  destruct (columnValue_cases idx (store t row))
    as [Hshort|[Hneg|[[Hidx Hlt] [rawValue Hraw]]]]; simpl in *.
  - rewrite columnValue_short by done. simpl.
    destruct (idx <? 0) eqn:Hsign; [done|].
    rewrite (lookup_ge_None_2 (AbstractValues row) (Z.to_nat idx)) by lia.
    done.
  - rewrite columnValue_negative by done. simpl.
    destruct (idx <? 0) eqn:Hsign; [done|lia].
  - rewrite (columnValue_at idx (store t row) rawValue Hidx Hraw). simpl.
    destruct (idx <? 0) eqn:Hsign; [lia|]. rewrite Hraw.
    destruct rawValue; [split; congruence|..];
      (destruct (OriginalTableColumns (TableOf t)) as [columns|]; [|done];
       destruct (Columns columns !! Z.to_nat idx) as [column|]; [|done];
       destruct (ColType column); split; congruence).
Qed.

Lemma columnValue_unbound t row idx :
  spec_boundValue t row idx = None →
  ∀ value, fst (columnValue idx (store t row)) ≠ Return (inl value).
Proof.
  intros Hnone value Hrun. apply columnValue_bound in Hrun. congruence.
Qed.

(** A read that cannot panic returns. *)
Lemma columnValue_panicFree t row idx :
  panicFree t row idx →
  ∃ r, fst (columnValue idx (store t row)) = Return r.
Proof.
  intros Hfree.
  destruct (columnValue_cases idx (store t row))
    as [Hshort|[Hneg|[[Hidx Hlt] [rawValue Hraw]]]]; simpl in *.
  - rewrite columnValue_short by done. by eexists.
  - destruct Hfree as [? _]; lia.
  - rewrite (columnValue_at idx (store t row) rawValue Hidx Hraw). simpl.
    destruct (Hfree Hlt) as [_ [Hnil|(columns & Hcols & Hcolumn)]].
    + rewrite Hraw in Hnil. simplify_eq. by eexists.
    + rewrite Hcols.
      destruct (lookup_lt_is_Some_2 (Columns columns) (Z.to_nat idx))
        as [column ->]; [lia|].
      destruct rawValue, (ColType column); by eexists.
Qed.

(** Entries that bind are passed over: the loop goes on with the rest. *)
Lemma bindFields_prefix (pre : list (string * Z)) :
  ∀ (m : gmap string GoValue) (s : Store),
    (∀ field idx, (field, idx) ∈ pre →
       ∃ value, fst (columnValue idx s) = Return (inl value)) →
    ∃ m', ∀ rest,
      fst (bindFields (pre ++ rest)%list m s) = fst (bindFields rest m' s).
Proof.
  induction pre as [|[field0 idx0] pre IH]; intros m s Hbind.
  - by exists m.
  - destruct (Hbind field0 idx0) as [value0 Hvalue0];
      [apply elem_of_cons; by left|].
    destruct (IH (<[field0 := value0]> m) s) as [m' Hm'].
    { intros field idx Hin. apply (Hbind field idx).
      apply elem_of_cons. by right. }
    exists m'. intros rest. rewrite <- Hm'. simpl app.
    by rewrite bindFields_cons, Hvalue0.
Qed.

(** The call ends with the outcome of the first entry that does not bind. *)
Lemma callWhereTrue_reaches t row pre field idx post err :
  (∀ f i, (f, i) ∈ pre → is_Some (spec_boundValue t row i)) →
  fst (columnValue idx (store t row)) = Return (inr err) →
  callWhereTrue t row (pre ++ (field, idx) :: post)%list
  = Return (false, Some err).
Proof.
  intros Hpre Hcol. rewrite callWhereTrue_unfold. unfold callBindFields.
  destruct (bindFields_prefix pre ∅ (store t row)) as [m' ->].
  { intros f i Hin. destruct (Hpre f i Hin) as [value Hvalue].
    exists value. by apply columnValue_bound. }
  by rewrite bindFields_cons, Hcol.
Qed.

(** Either every entry binds, or there is a first one that does not. *)
Lemma first_unbound t row entries :
  (∀ f i, (f, i) ∈ entries → is_Some (spec_boundValue t row i))
  ∨ ∃ pre field idx post,
      entries = (pre ++ (field, idx) :: post)%list
      ∧ (∀ f i, (f, i) ∈ pre → is_Some (spec_boundValue t row i))
      ∧ spec_boundValue t row idx = None.
Proof.
  induction entries as [|[field0 idx0] rest IH].
  - left. intros f i Hin. by apply elem_of_nil in Hin.
  - destruct (spec_boundValue t row idx0) as [value0|] eqn:Hfirst.
    + destruct IH as [Hall|(pre & field & idx & post & -> & Hpre & Hnone)].
      * left. intros f i [Heq|Hin]%elem_of_cons; [|by apply (Hall f i)].
        simplify_eq. by eexists.
      * right. exists ((field0, idx0) :: pre), field, idx, post.
        split; [done|]. split; [|done].
        intros f i [Heq|Hin]%elem_of_cons; [|by apply (Hpre f i)].
        simplify_eq. by eexists.
    + right. exists [], field0, idx0, rest. split; [done|]. split; [|done].
      intros f i Hin. by apply elem_of_nil in Hin.
Qed.

(** With every bound ordinal bindable the loop completes, in the
    environment the specification describes. *)
Lemma callBindFields_bound t row entries :
  rangeOrder (FieldsMap (WhereCtx t)) entries →
  (∀ field idx, FieldsMap (WhereCtx t) !! field = Some idx →
     is_Some (spec_boundValue t row idx)) →
  callBindFields t row entries
  = Return (inl (omap (spec_boundValue t row) (FieldsMap (WhereCtx t)))).
Proof.
  intros Horder Hall.
  destruct (bindFields_completes entries ∅ (store t row)) as [m Hrun].
  { intros field idx Hin. apply (rangeOrder_elem _ _ _ _ Horder) in Hin.
    destruct (Hall field idx Hin) as [value Hvalue]. exists value.
    by apply columnValue_bound. }
  unfold callBindFields. rewrite Hrun. do 2 f_equal.
  destruct (bindFields_inl _ _ _ _ Hrun (rangeOrder_NoDup _ _ Horder))
    as [Hbound Hkept].
  apply map_eq. intros field. rewrite lookup_omap.
  destruct (FieldsMap (WhereCtx t) !! field) as [idx|] eqn:Hfield; simpl.
  - destruct (Hbound field idx) as (value & Hcol & ->);
      [by apply (rangeOrder_elem _ _ _ _ Horder)|].
    symmetry. by apply columnValue_bound.
  - rewrite Hkept; [apply lookup_empty|].
    rewrite (rangeOrder_fst _ _ _ Horder), Hfield. by intros [? ?].
Qed.

(** When no read can panic and some entry does not bind, the call returns
    the error of the first such entry. *)
Lemma callWhereTrue_first_error t row entries :
  rangeOrder (FieldsMap (WhereCtx t)) entries →
  (∀ field idx, FieldsMap (WhereCtx t) !! field = Some idx →
     panicFree t row idx) →
  (∃ field idx, FieldsMap (WhereCtx t) !! field = Some idx
                ∧ spec_boundValue t row idx = None) →
  ∃ field idx err,
    FieldsMap (WhereCtx t) !! field = Some idx
    ∧ fst (columnValue idx (store t row)) = Return (inr err)
    ∧ callWhereTrue t row entries = Return (false, Some err).
Proof.
  intros Horder Hfree (field0 & idx0 & Hfield0 & Hnone0).
  destruct (first_unbound t row entries)
    as [Hall|(pre & field & idx & post & -> & Hpre & Hnone)].
  - apply (rangeOrder_elem _ _ _ _ Horder) in Hfield0.
    destruct (Hall _ _ Hfield0) as [? ?]. congruence.
  - assert (FieldsMap (WhereCtx t) !! field = Some idx) as Hfield.
    { apply (rangeOrder_elem _ _ _ _ Horder). apply elem_of_app. right.
      apply elem_of_cons. by left. }
    destruct (columnValue_panicFree t row idx (Hfree _ _ Hfield))
      as [[value|err] Hcol].
    { apply columnValue_bound in Hcol. congruence. }
    exists field, idx, err. split; [done|]. split; [done|].
    by apply callWhereTrue_reaches.
Qed.

End VisitingOrder.

(** The stale predicate [zipWhereCtx] is the one compiled for the wider
    table, and the order in which its two entries are written is one Go may
    take. *)
Example zipWhereCtx_compiled :
  @NewWhereCtx MiniQL.lib "bio = 'x' and zip = 7" addressTable
  = Return (inl zipWhereCtx).
Proof. reflexivity. Qed.

Lemma zipWhereCtx_order :
  rangeOrder (FieldsMap zipWhereCtx) [("bio", 1); ("zip", 2)].
Proof.
  unfold rangeOrder. simpl.
  rewrite map_to_list_insert by reflexivity.
  by rewrite map_to_list_singleton.
Qed.

(** C3, as the code has it.  When some bound ordinal is not below the number
    of columns of the row, no visiting order makes [WhereTrue] return a
    decision with no error.  The call returns the not-enough-columns error
    of that entry when the loop reaches it, that is when every entry visited
    before it is bound; so when every bound ordinal within the row is
    bindable the call returns the not-enough-columns error of a bound
    ordinal, whatever the column list says of the ordinals beyond the row.
    When no read can panic the call returns an error, which is the
    not-enough-columns error of a bound ordinal or the type error of a
    bound large-text column holding a value that is not a byte sequence. *)
Theorem C3_short_row_is_an_error `{ExprLib} :
  ∀ (t : TableContext) (row : ColumnValues) (entries : list (string * Z))
    (field : string) (idx : Z),
    rangeOrder (FieldsMap (WhereCtx t)) entries →
    FieldsMap (WhereCtx t) !! field = Some idx →
    Z.of_nat (length (AbstractValues row)) <= idx →
    let nCols := Z.of_nat (length (AbstractValues row)) in
    (∀ decision, callWhereTrue t row entries ≠ Return (decision, None))
    ∧ (∀ pre post,
         entries = (pre ++ (field, idx) :: post)%list →
         (∀ f i, (f, i) ∈ pre → is_Some (spec_boundValue t row i)) →
         callWhereTrue t row entries
         = Return (false, Some (ErrNotEnoughColumns nCols idx)))
    ∧ ((∀ f i, FieldsMap (WhereCtx t) !! f = Some i → i < nCols →
               is_Some (spec_boundValue t row i)) →
       ∃ field' idx',
         FieldsMap (WhereCtx t) !! field' = Some idx'
         ∧ nCols <= idx'
         ∧ callWhereTrue t row entries
           = Return (false, Some (ErrNotEnoughColumns nCols idx')))
    ∧ ((∀ f i, FieldsMap (WhereCtx t) !! f = Some i → panicFree t row i) →
       ∃ err,
         callWhereTrue t row entries = Return (false, Some err)
         ∧ ((∃ field' idx',
               FieldsMap (WhereCtx t) !! field' = Some idx'
               ∧ nCols <= idx'
               ∧ err = ErrNotEnoughColumns nCols idx')
            ∨ (∃ field' idx' rawValue,
                 FieldsMap (WhereCtx t) !! field' = Some idx'
                 ∧ AbstractValues row !! Z.to_nat idx' = Some rawValue
                 ∧ rawValue ≠ VNil
                 ∧ (∀ bs, rawValue ≠ VBytes bs)
                 ∧ err = ErrExpectBytes (type_name rawValue)))).
Proof.
  intros t row entries field idx Horder Hfield Hshort nCols.
  assert (fst (columnValue idx {| this := t; values := row |})
          = Return (inr (ErrNotEnoughColumns nCols idx))) as Hcol.
  { by rewrite columnValue_short. }
  assert (spec_boundValue t row idx = None) as Hnone.
  { destruct (spec_boundValue t row idx) as [value|] eqn:Hspec; [|done].
    apply columnValue_bound in Hspec. congruence. }
  split; [|split; [|split]].
  - apply (callWhereTrue_unbindable t row entries field idx Horder Hfield).
    by apply columnValue_unbound.
  - intros pre post -> Hpre. by apply callWhereTrue_reaches.
  - intros Hinrow.
    destruct (first_unbound t row entries)
      as [Hall|(pre & field' & idx' & post & -> & Hpre & Hnone')].
    { apply (rangeOrder_elem _ _ _ _ Horder) in Hfield.
      destruct (Hall _ _ Hfield) as [? ?]. congruence. }
    assert (FieldsMap (WhereCtx t) !! field' = Some idx') as Hfield'.
    { apply (rangeOrder_elem _ _ _ _ Horder). apply elem_of_app. right.
      apply elem_of_cons. by left. }
    destruct (Z_le_gt_dec nCols idx') as [Hshort'|Hin].
    + exists field', idx'. split; [done|]. split; [done|].
      apply callWhereTrue_reaches; [done|]. by rewrite columnValue_short.
    + destruct (Hinrow field' idx' Hfield') as [? ?]; [lia|congruence].
  - intros Hfree.
    destruct (callWhereTrue_first_error t row entries Horder Hfree)
      as (field' & idx' & err & Hfield' & Hcol' & Hcall).
    { by exists field, idx. }
    exists err. split; [done|].
    destruct (columnValue_inr _ _ _ _ Hcol')
      as [[Hshort' ->]|[_ (rawValue & columns & column & Hraw & Hnil & Hbytes
                             & _ & _ & _ & ->)]].
    + left. by exists field', idx'.
    + right. by exists field', idx', rawValue.
Qed.

Lemma C3_short_row_is_an_error_witness :
  callWhereTrue (NewTableContext peopleTable zipWhereCtx)
    {| AbstractValues := [VInt 31; VBytes bytes_x] |}
    [("bio", 1); ("zip", 2)]
  = Return (false, Some (ErrNotEnoughColumns 2 2))
  ∧ ∀ decision,
      callWhereTrue (NewTableContext peopleTable zipWhereCtx)
        {| AbstractValues := [VInt 31; VBytes bytes_x] |}
        [("bio", 1); ("zip", 2)]
      ≠ Return (decision, None).
Proof.
  destruct (C3_short_row_is_an_error (H := MiniQL.lib)
              (NewTableContext peopleTable zipWhereCtx)
              {| AbstractValues := [VInt 31; VBytes bytes_x] |}
              [("bio", 1); ("zip", 2)] "zip" 2)
    as (Hnever & Hreached & _).
  - apply zipWhereCtx_order.
  - reflexivity.
  - simpl. lia.
  - split; [|exact Hnever].
    apply (Hreached [("bio", 1)] []); [reflexivity|].
    intros f i Hin. apply elem_of_cons in Hin as [Heq|Hin];
      [|by apply elem_of_nil in Hin].
    injection Heq as -> ->. by eexists.
Defined.

(** C3, the claim as stated fails.  The predicate compiled for
    [address(age, bio, zip)] is evaluated after the schema lost [zip]: the
    row has two columns and the bound ordinal 2 is not below that, yet with
    [bio] visited first and holding a string the call returns the type
    error, not the not-enough-columns error; and with a table that has no
    column list the call does not return at all. *)
Lemma C3_type_error_comes_first :
  rangeOrder (FieldsMap zipWhereCtx) [("bio", 1); ("zip", 2)]
  ∧ FieldsMap zipWhereCtx !! "zip" = Some 2
  ∧ Z.of_nat (length [VInt 31; VString "x"]) <= 2
  ∧ callWhereTrue (NewTableContext peopleTable zipWhereCtx)
      {| AbstractValues := [VInt 31; VString "x"] |}
      [("bio", 1); ("zip", 2)]
    = Return (false, Some (ErrExpectBytes "string"))
  ∧ callWhereTrue (NewTableContext (NewTable "shop" "people") zipWhereCtx)
      {| AbstractValues := [VInt 31; VString "x"] |}
      [("bio", 1); ("zip", 2)]
    = Panic NilPointerDereference.
Proof.
  split; [apply zipWhereCtx_order|].
  split; [reflexivity|]. split; [simpl; lia|]. split; reflexivity.
Qed.

(** C4.  The loop of [WhereTrue] completes exactly when every bound ordinal
    is bindable, and then, for every entry of the field map: a nil raw value
    is bound as nil; a non-nil raw value of a large-text column is a byte
    sequence and is bound as the text of its bytes; a non-nil raw value of
    any other column is bound as it is; and nothing else is bound.  When
    the loop reaches a non-nil raw value of a large-text column that is not
    a byte sequence, the call returns the type error of that value; with
    such an entry in the field map no visiting order gives a decision, and
    the call returns an error whenever no read can panic. *)
Theorem C4_binding_by_column_type `{ExprLib} :
  ∀ (t : TableContext) (row : ColumnValues) (entries : list (string * Z)),
    rangeOrder (FieldsMap (WhereCtx t)) entries →
    ((∀ field idx, FieldsMap (WhereCtx t) !! field = Some idx →
        is_Some (spec_boundValue t row idx)) →
     ∃ m,
       callBindFields t row entries = Return (inl m)
       ∧ (∀ other, FieldsMap (WhereCtx t) !! other = None → m !! other = None)
       ∧ ∀ field idx,
           FieldsMap (WhereCtx t) !! field = Some idx →
           ∃ rawValue,
             0 <= idx
             ∧ AbstractValues row !! Z.to_nat idx = Some rawValue
             ∧ match rawValue with
               | VNil => m !! field = Some VNil
               | _ =>
                   ∃ columns column,
                     OriginalTableColumns (TableOf t) = Some columns
                     ∧ Columns columns !! Z.to_nat idx = Some column
                     ∧ match ColType column with
                       | TextColumnType =>
                           ∃ bs, rawValue = VBytes bs
                                 ∧ m !! field
                                   = Some (VString (string_of_list_byte bs))
                       | OtherColumnType _ => m !! field = Some rawValue
                       end
               end)
    ∧ (∀ m, callBindFields t row entries = Return (inl m) →
            ∀ field idx, FieldsMap (WhereCtx t) !! field = Some idx →
                         spec_boundValue t row idx = m !! field
                         ∧ is_Some (m !! field))
    ∧ (∀ field idx rawValue columns column,
         FieldsMap (WhereCtx t) !! field = Some idx →
         0 <= idx →
         AbstractValues row !! Z.to_nat idx = Some rawValue →
         rawValue ≠ VNil →
         (∀ bs, rawValue ≠ VBytes bs) →
         OriginalTableColumns (TableOf t) = Some columns →
         Columns columns !! Z.to_nat idx = Some column →
         ColType column = TextColumnType →
         (∀ pre post,
            entries = (pre ++ (field, idx) :: post)%list →
            (∀ f i, (f, i) ∈ pre → is_Some (spec_boundValue t row i)) →
            callWhereTrue t row entries
            = Return (false, Some (ErrExpectBytes (type_name rawValue))))
         ∧ (∀ decision, callWhereTrue t row entries ≠ Return (decision, None))
         ∧ ((∀ f i, FieldsMap (WhereCtx t) !! f = Some i →
                    panicFree t row i) →
            ∃ err, callWhereTrue t row entries = Return (false, Some err))).
Proof.
  intros t row entries Horder. split; [|split].
  - intros Hall. eexists. split; [by apply callBindFields_bound|].
    split.
    + intros other Hother. by rewrite lookup_omap, Hother.
    + intros field idx Hfield. rewrite lookup_omap, Hfield. simpl.
      destruct (Hall field idx Hfield) as [value Hvalue]. rewrite Hvalue.
      apply columnValue_bound, columnValue_inl in Hvalue
        as ([Hidx _] & rawValue & Hraw & Hcase).
      exists rawValue. split; [done|]. split; [done|].
      destruct rawValue; [by subst|..];
        (destruct Hcase as (columns & column & Hcols & Hcolumn & Hty);
         exists columns, column; split; [done|]; split; [done|];
         destruct (ColType column); [|by subst];
         destruct Hty as (text & ? & ->); by exists text).
  - intros m Hrun field idx Hfield. unfold callBindFields in Hrun.
    destruct (bindFields_inl _ _ _ _ Hrun (rangeOrder_NoDup _ _ Horder))
      as [Hbound _].
    destruct (Hbound field idx) as (value & Hcol & Hm);
      [by apply (rangeOrder_elem _ _ _ _ Horder)|].
    apply columnValue_bound in Hcol. rewrite Hm. split; [done|by eexists].
  - intros field idx rawValue columns column Hfield Hidx Hraw Hnil Hbytes
      Hcols Hcolumn Hty.
    assert (fst (columnValue idx {| this := t; values := row |})
            = Return (inr (ErrExpectBytes (type_name rawValue)))) as Hcol.
    { rewrite (columnValue_at idx {| this := t; values := row |} rawValue
                 Hidx Hraw). simpl. rewrite Hcols, Hcolumn, Hty.
      destruct rawValue; try done. by destruct (Hbytes bs). }
    assert (spec_boundValue t row idx = None) as Hnone.
    { destruct (spec_boundValue t row idx) as [value|] eqn:Hspec; [|done].
      apply columnValue_bound in Hspec. congruence. }
    split; [|split].
    + intros pre post -> Hpre. by apply callWhereTrue_reaches.
    + apply (callWhereTrue_unbindable t row entries field idx Horder Hfield).
      by apply columnValue_unbound.
    + intros Hfree.
      destruct (callWhereTrue_first_error t row entries Horder Hfree)
        as (field' & idx' & err & _ & _ & Hcall).
      { by exists field, idx. }
      by exists err.
Qed.

Lemma C4_binding_by_column_type_witness :
  ∃ m,
    callBindFields (NewTableContext addressTable zipWhereCtx)
      {| AbstractValues := [VNil; VBytes bytes_x; VInt 7] |}
      [("bio", 1); ("zip", 2)]
    = Return (inl m)
    ∧ m !! "bio" = Some (VString "x")
    ∧ m !! "zip" = Some (VInt 7)
    ∧ m !! "age" = None.
Proof.
  destruct (C4_binding_by_column_type (H := MiniQL.lib)
              (NewTableContext addressTable zipWhereCtx)
              {| AbstractValues := [VNil; VBytes bytes_x; VInt 7] |}
              [("bio", 1); ("zip", 2)] zipWhereCtx_order)
    as (Hbinds & _).
  destruct Hbinds as (m & Hrun & Hother & _).
  - intros field idx Hfield. simpl in Hfield.
    apply lookup_insert_Some in Hfield as [[_ <-]|[_ Hfield]]; [by eexists|].
    apply lookup_singleton_Some in Hfield as [_ <-]. by eexists.
  - exists m. split; [exact Hrun|].
    assert (callBindFields (NewTableContext addressTable zipWhereCtx)
              {| AbstractValues := [VNil; VBytes bytes_x; VInt 7] |}
              [("bio", 1); ("zip", 2)]
            = Return (inl {[ "bio" := VString "x"; "zip" := VInt 7 ]}))
      as Hcomputed by reflexivity.
    rewrite Hcomputed in Hrun. injection Hrun as <-. repeat split.
Defined.

(** C5.  Once the loop of [WhereTrue] has completed with an environment: a
    failed evaluation of the tree makes the call return the evaluation
    error, and a result that is not a boolean the not-a-boolean error.  The
    call returns a decision with no error exactly when the tree evaluates to
    that boolean in the environment, so a failure is never turned into a
    plain reject; and the decision does not depend on the visiting order. *)
Theorem C5_evaluation_failure_is_an_error `{ExprLib} :
  ∀ (t : TableContext) (row : ColumnValues) (entries : list (string * Z)),
    (∀ m, callBindFields t row entries = Return (inl m) →
          Eval m (Ast (WhereCtx t)) = None →
          callWhereTrue t row entries = Return (false, Some ErrCannotEval))
    ∧ (∀ m val, callBindFields t row entries = Return (inl m) →
                Eval m (Ast (WhereCtx t)) = Some val →
                (∀ r, val ≠ VBool r) →
                callWhereTrue t row entries = Return (false, Some ErrNotBool))
    ∧ (∀ decision,
         callWhereTrue t row entries = Return (decision, None)
         ↔ ∃ m, callBindFields t row entries = Return (inl m)
                ∧ Eval m (Ast (WhereCtx t)) = Some (VBool decision))
    ∧ (∀ entries' decision,
         rangeOrder (FieldsMap (WhereCtx t)) entries →
         rangeOrder (FieldsMap (WhereCtx t)) entries' →
         callWhereTrue t row entries = Return (decision, None) →
         callWhereTrue t row entries' = Return (decision, None)).
Proof.
  intros t row entries.
  assert (∀ entries0 decision,
    callWhereTrue t row entries0 = Return (decision, None)
    ↔ ∃ m, callBindFields t row entries0 = Return (inl m)
           ∧ Eval m (Ast (WhereCtx t)) = Some (VBool decision)) as Hiff.
  { intros entries0 decision. rewrite callWhereTrue_unfold. split.
    - destruct (callBindFields t row entries0) as [[m|err]|p]; [|done..].
      destruct (Eval m (Ast (WhereCtx t))) as [[]|] eqn:Heval; try done.
      intros; simplify_eq. by exists m.
    - intros (m & -> & ->). done. }
  split; [|split; [|split]].
  - intros m Hrun Heval. by rewrite callWhereTrue_unfold, Hrun, Heval.
  - intros m val Hrun Heval Hnotbool.
    rewrite callWhereTrue_unfold, Hrun, Heval.
    destruct val; try done. by destruct (Hnotbool b).
  - apply Hiff.
  - intros entries' decision Horder Horder' Hcall.
    apply Hiff in Hcall as (m & Hrun & Heval). apply Hiff. exists m.
    split; [|done].
    exact (callBindFields_any_order t row entries entries' m Horder Horder' Hrun).
Qed.

Lemma C5_evaluation_failure_is_an_error_witness :
  callWhereTrue (NewTableContext peopleTable ageWhereCtx)
    {| AbstractValues := [VString "old"; VNil] |}
    (map_to_list (FieldsMap ageWhereCtx))
  = Return (false, Some ErrCannotEval).
Proof.
  destruct (C5_evaluation_failure_is_an_error (H := MiniQL.lib)
              (NewTableContext peopleTable ageWhereCtx)
              {| AbstractValues := [VString "old"; VNil] |}
              (map_to_list (FieldsMap ageWhereCtx)))
    as (Hfail & _).
  apply (Hfail {[ "age" := VString "old" ]}); reflexivity.
Defined.


(** ** Further properties of the compiler *)

(** The loop never drops a field it has mapped. *)
Lemma resolveFields_keeps table fields :
  ∀ fieldsMap fieldsMap',
    resolveFields table fields fieldsMap = Return (inl fieldsMap') →
    ∀ f, is_Some (fieldsMap !! f) → is_Some (fieldsMap' !! f).
Proof.
  induction fields as [|field rest IH]; intros fm fm' Hrun f Hf; simpl in Hrun.
  - congruence.
  - destruct (isReserved (ToLower field)); [by eapply IH|].
    destruct (fm !! field) eqn:Hfm; [by eapply IH|].
    destruct (OriginalTableColumns table) as [columns|]; [|done].
    destruct (Ordinals columns !! field) as [ordinal|]; [|done].
    eapply IH; [done|]. destruct (decide (field = f)) as [->|Hne].
    + rewrite lookup_insert_eq. by eexists.
    + by rewrite lookup_insert_ne.
Qed.

(** A completed loop has mapped every identifier that is not reserved. *)
Lemma resolveFields_binds table fields :
  ∀ fieldsMap fieldsMap',
    resolveFields table fields fieldsMap = Return (inl fieldsMap') →
    ∀ f, f ∈ fields → isReserved (ToLower f) = false →
         is_Some (fieldsMap' !! f).
Proof.
  induction fields as [|field rest IH]; intros fm fm' Hrun f Hin Hres;
    simpl in Hrun.
  - by apply elem_of_nil in Hin.
  - apply elem_of_cons in Hin as [->|Hin].
    + rewrite Hres in Hrun.
      destruct (fm !! field) eqn:Hfm.
      { eapply resolveFields_keeps; [done|]. by eexists. }
      destruct (OriginalTableColumns table) as [columns|]; [|done].
      destruct (Ordinals columns !! field) as [ordinal|]; [|done].
      eapply resolveFields_keeps; [done|]. rewrite lookup_insert_eq.
      by eexists.
    + destruct (isReserved (ToLower field)); [by eapply IH|].
      destruct (fm !! field) eqn:Hfm; [by eapply IH|].
      destruct (OriginalTableColumns table) as [columns|]; [|done].
      destruct (Ordinals columns !! field) as [ordinal|]; [|done].
      by eapply IH.
Qed.

(** Without a column list the loop panics at the first identifier that is
    not reserved. *)
Lemma resolveFields_nil_columns table fields :
  OriginalTableColumns table = None →
  Exists (fun f => isReserved (ToLower f) = false) fields →
  resolveFields table fields ∅ = Panic NilPointerDereference.
Proof.
  intros Hnil. induction fields as [|field rest IH]; intros Hex; simpl.
  - by apply Exists_nil in Hex.
  - destruct (isReserved (ToLower field)) eqn:Hres.
    + apply IH. apply Exists_cons in Hex as [Hhere|Hlater]; [congruence|done].
    + by rewrite lookup_empty, Hnil.
Qed.

(** X1.  A compiled predicate keeps the text and the parsed tree, and binds
    exactly the identifiers of the tree that are not reserved literals: each
    identifier the evaluator will look up has an ordinal. *)
Theorem NewWhereCtx_binds_exactly_the_identifiers `{ExprLib} :
  ∀ (where_ : string) (table : Table) (whereCtx : WhereContext),
    NewWhereCtx where_ table = Return (inl whereCtx) →
    ∃ ast,
      ParseExpression where_ = inl ast
      ∧ Ast whereCtx = ast
      ∧ WhereText whereCtx = where_
      ∧ ∀ field,
          is_Some (FieldsMap whereCtx !! field)
          ↔ field ∈ FindAllIdentityField ast
            ∧ isReserved (ToLower field) = false.
Proof.
  intros where_ table whereCtx Hnew. unfold NewWhereCtx in Hnew.
  destruct (ParseExpression where_) as [ast|msg] eqn:Hparse; [|done].
  destruct (resolveFields table (FindAllIdentityField ast) ∅)
    as [[fieldsMap|err]|p] eqn:Hres; [|done..].
  simplify_eq. exists ast. simpl. do 3 (split; [done|]).
  intros field. split.
  - intros [idx Hidx].
    destruct (resolveFields_sound _ _ _ _ Hres _ _ Hidx) as [Hempty|(?&?&?)];
      [by rewrite lookup_empty in Hempty|done].
  - intros [Hin Hreserved]. by eapply resolveFields_binds.
Qed.

Lemma NewWhereCtx_binds_exactly_the_identifiers_witness :
  is_Some (FieldsMap bioWhereCtx !! "age")
  ↔ "age" ∈ MiniQL.findAllIdentityField (Ast bioWhereCtx)
    ∧ isReserved (ToLower "age") = false.
Proof.
  destruct (NewWhereCtx_binds_exactly_the_identifiers (H := MiniQL.lib)
              "bio = 'x' and age > 30" peopleTable bioWhereCtx eq_refl)
    as (ast & Hparse & Hast & _ & Hdom).
  rewrite Hast. apply Hdom.
Defined.

(** X2.  Against a table that has a column list, compilation of a parsed
    expression never panics, and it succeeds exactly when every identifier
    that is not a reserved literal is a key of [Ordinals]. *)
Theorem NewWhereCtx_succeeds_iff_resolvable `{ExprLib} :
  ∀ (where_ : string) (table : Table) (columns : ColumnList) (ast : Node),
    OriginalTableColumns table = Some columns →
    ParseExpression where_ = inl ast →
    ((∃ whereCtx, NewWhereCtx where_ table = Return (inl whereCtx))
     ↔ ∀ field, field ∈ FindAllIdentityField ast →
                isReserved (ToLower field) = false →
                is_Some (Ordinals columns !! field))
    ∧ ∃ result, NewWhereCtx where_ table = Return result.
Proof.
  intros where_ table columns ast Hcols Hparse.
  unfold NewWhereCtx. rewrite Hparse. simpl.
  destruct (find (unknownField columns) (FindAllIdentityField ast))
    as [unknown|] eqn:Hfind.
  - rewrite (resolveFields_unknown _ _ _ Hcols ∅ unknown); [| |done].
    2:{ intros f [k Hk]. by rewrite lookup_empty in Hk. }
    split; [|by eexists]. split; [by intros [? ?]|].
    intros Hall. apply find_some in Hfind as [Hin Hunk].
    apply list_elem_of_In in Hin. unfold unknownField in Hunk.
    apply andb_true_iff in Hunk as [Hres Hord].
    apply negb_true_iff in Hres. apply bool_decide_eq_true_1 in Hord.
    destruct (Hall unknown Hin Hres) as [k Hk]. congruence.
  - destruct (resolveFields_known _ _ _ Hcols ∅ Hfind) as [fieldsMap ->].
    split; [|by eexists]. split; [|by eexists].
    intros _ field Hin Hres. apply list_elem_of_In in Hin.
    pose proof (find_none _ _ Hfind _ Hin) as Hknown.
    unfold unknownField in Hknown. rewrite Hres in Hknown. simpl in Hknown.
    apply bool_decide_eq_false_1 in Hknown.
    by destruct (Ordinals columns !! field); [eexists|].
Qed.

Lemma NewWhereCtx_succeeds_iff_resolvable_witness :
  (∃ whereCtx, @NewWhereCtx MiniQL.lib "age > 30" peopleTable
               = Return (inl whereCtx))
  ↔ ∀ field, field ∈ MiniQL.findAllIdentityField (Ast ageWhereCtx) →
             isReserved (ToLower field) = false →
             is_Some (({[ "age" := 0; "bio" := 1 ]} : gmap string Z) !! field).
Proof.
  exact (proj1 (NewWhereCtx_succeeds_iff_resolvable (H := MiniQL.lib)
                  "age > 30" peopleTable
                  {| Columns :=
                       [ {| Name := "age"; ColType := OtherColumnType 0 |};
                         {| Name := "bio"; ColType := TextColumnType |} ];
                     Ordinals := {[ "age" := 0; "bio" := 1 ]} |}
                  (Ast ageWhereCtx) eq_refl eq_refl)).
Defined.

(** X3.  Against a table without a column list, as [NewTable] leaves it, a
    parsed expression made of reserved literals only compiles to an empty
    field map, and one that mentions any other identifier makes the compiler
    panic on the nil column list. *)
Theorem NewWhereCtx_without_columns `{ExprLib} :
  ∀ (where_ : string) (table : Table) (ast : Node),
    OriginalTableColumns table = None →
    ParseExpression where_ = inl ast →
    (Forall (fun f => isReserved (ToLower f) = true) (FindAllIdentityField ast) →
     ∃ whereCtx, NewWhereCtx where_ table = Return (inl whereCtx)
                 ∧ FieldsMap whereCtx = ∅)
    ∧ (Exists (fun f => isReserved (ToLower f) = false)
         (FindAllIdentityField ast) →
       NewWhereCtx where_ table = Panic NilPointerDereference).
Proof.
  intros where_ table ast Hnil Hparse. unfold NewWhereCtx. rewrite Hparse.
  simpl. split.
  - intros Hall. rewrite (resolveFields_reserved _ _ _ Hall). by eexists.
  - intros Hex. by rewrite (resolveFields_nil_columns _ _ Hnil Hex).
Qed.

Lemma NewWhereCtx_without_columns_witness :
  OriginalTableColumns (NewTable "shop" "people") = None
  ∧ @NewWhereCtx MiniQL.lib "age > 30" (NewTable "shop" "people")
    = Panic NilPointerDereference.
Proof.
  split; [reflexivity|].
  apply (NewWhereCtx_without_columns (H := MiniQL.lib)
           "age > 30" (NewTable "shop" "people") (Ast ageWhereCtx)
           eq_refl eq_refl).
  simpl. apply Exists_cons. by left.
Defined.

(** ** Further properties of the evaluator *)

(** The loop depends on the store only through the values it binds. *)
Lemma bindFields_ext `{ExprLib} (entries : list (string * Z)) :
  ∀ (m : gmap string GoValue) (s1 s2 : Store),
    (∀ field idx, (field, idx) ∈ entries →
       fst (columnValue idx s1) = fst (columnValue idx s2)) →
    fst (bindFields entries m s1) = fst (bindFields entries m s2).
Proof.
  induction entries as [|[field0 idx0] rest IH]; intros m s1 s2 Hsame; [done|].
  rewrite !bindFields_cons.
  rewrite <- (Hsame field0 idx0) by (apply elem_of_cons; by left).
  destruct (fst (columnValue idx0 s1)) as [[value|err]|p]; [|done..].
  apply IH. intros field idx Hin. apply (Hsame field idx).
  apply elem_of_cons. by right.
Qed.

(** A panic of the loop is the panic of one of its entries. *)
Lemma bindFields_panic `{ExprLib} (entries : list (string * Z)) :
  ∀ (m : gmap string GoValue) (s : Store) (p : panic),
    fst (bindFields entries m s) = Panic p →
    ∃ field idx, (field, idx) ∈ entries ∧ fst (columnValue idx s) = Panic p.
Proof.
  induction entries as [|[field0 idx0] rest IH]; intros m s p Hrun; [done|].
  rewrite bindFields_cons in Hrun.
  destruct (fst (columnValue idx0 s)) as [[value|err]|p0] eqn:Hcol.
  - destruct (IH _ _ _ Hrun) as (field & idx & Hin & Hp).
    exists field, idx. split; [|done]. apply elem_of_cons. by right.
  - done.
  - simpl in Hrun. simplify_eq. exists field0, idx0.
    split; [|done]. apply elem_of_cons. by left.
Qed.




(** X5.  The outcome of [WhereTrue] depends on the row only through the
    columns the predicate binds: two rows that both reach every bound
    ordinal and hold the same values there get the same outcome, whatever
    their other columns and their lengths. *)
Theorem WhereTrue_reads_only_bound_columns `{ExprLib} :
  ∀ (t : TableContext) (row1 row2 : ColumnValues)
    (entries : list (string * Z)),
    rangeOrder (FieldsMap (WhereCtx t)) entries →
    (∀ field idx, FieldsMap (WhereCtx t) !! field = Some idx →
       0 <= idx
       ∧ is_Some (AbstractValues row1 !! Z.to_nat idx)
       ∧ AbstractValues row1 !! Z.to_nat idx
         = AbstractValues row2 !! Z.to_nat idx) →
    callWhereTrue t row1 entries = callWhereTrue t row2 entries.
Proof.
  intros t row1 row2 entries Horder Hagree.
  rewrite !callWhereTrue_unfold. unfold callBindFields.
  rewrite (bindFields_ext entries ∅ {| this := t; values := row1 |}
             {| this := t; values := row2 |}); [done|].
  intros field idx Hin. apply (rangeOrder_elem _ _ _ _ Horder) in Hin.
  destruct (Hagree field idx Hin) as (Hidx & [rawValue Hraw1] & Hsame).
  assert (AbstractValues row2 !! Z.to_nat idx = Some rawValue) as Hraw2
    by congruence.
  rewrite (columnValue_at idx {| this := t; values := row1 |} rawValue
             Hidx Hraw1).
  by rewrite (columnValue_at idx {| this := t; values := row2 |} rawValue
                Hidx Hraw2).
Qed.

Lemma WhereTrue_reads_only_bound_columns_witness :
  callWhereTrue (NewTableContext peopleTable ageWhereCtx)
    {| AbstractValues := [VInt 31; VNil] |}
    (map_to_list (FieldsMap ageWhereCtx))
  = callWhereTrue (NewTableContext peopleTable ageWhereCtx)
      {| AbstractValues := [VInt 31; VBytes bytes_x; VBool true] |}
      (map_to_list (FieldsMap ageWhereCtx)).
Proof.
  apply (WhereTrue_reads_only_bound_columns (H := MiniQL.lib)).
  - apply rangeOrder_map_to_list.
  - intros field idx Hfield. simpl in Hfield.
    apply lookup_singleton_Some in Hfield as [_ <-].
    split; [lia|]. split; [by eexists|reflexivity].
Defined.

(** X6.  Nil values are bound without consulting the column list: when the
    row holds nil at every bound ordinal the call does not panic and
    evaluates the tree in the environment that maps every bound field to
    nil, even for a table whose column list is nil or too short. *)
Theorem nil_values_need_no_column_list `{ExprLib} :
  ∀ (t : TableContext) (row : ColumnValues) (entries : list (string * Z)),
    rangeOrder (FieldsMap (WhereCtx t)) entries →
    (∀ field idx, FieldsMap (WhereCtx t) !! field = Some idx →
       0 <= idx ∧ AbstractValues row !! Z.to_nat idx = Some VNil) →
    callBindFields t row entries
    = Return (inl ((fun _ => VNil) <$> FieldsMap (WhereCtx t))).
Proof.
  intros t row entries Horder Hnil.
  destruct (bindFields_completes entries ∅ {| this := t; values := row |})
    as [m Hrun].
  { intros field idx Hin. apply (rangeOrder_elem _ _ _ _ Horder) in Hin.
    destruct (Hnil field idx Hin) as [Hidx Hraw]. exists VNil.
    by rewrite (columnValue_at idx {| this := t; values := row |} VNil
                  Hidx Hraw). }
  unfold callBindFields. rewrite Hrun. do 2 f_equal.
  destruct (bindFields_inl _ _ _ _ Hrun (rangeOrder_NoDup _ _ Horder))
    as [Hbound Hkept].
  apply map_eq. intros field. rewrite lookup_fmap.
  destruct (FieldsMap (WhereCtx t) !! field) as [idx|] eqn:Hfield; simpl.
  - destruct (Hbound field idx) as (value & Hcol & ->);
      [by apply (rangeOrder_elem _ _ _ _ Horder)|].
    destruct (Hnil field idx Hfield) as [Hidx Hraw].
    rewrite (columnValue_at idx {| this := t; values := row |} VNil
               Hidx Hraw) in Hcol. congruence.
  - rewrite Hkept; [apply lookup_empty|].
    rewrite (rangeOrder_fst _ _ _ Horder), Hfield. by intros [? ?].
Qed.

Lemma nil_values_need_no_column_list_witness :
  callBindFields (NewTableContext (NewTable "shop" "people") bioWhereCtx)
    {| AbstractValues := [VNil; VNil] |} (map_to_list (FieldsMap bioWhereCtx))
  = Return (inl {[ "bio" := VNil; "age" := VNil ]}).
Proof.
  rewrite (nil_values_need_no_column_list (H := MiniQL.lib)
             (NewTableContext (NewTable "shop" "people") bioWhereCtx)
             {| AbstractValues := [VNil; VNil] |}
             (map_to_list (FieldsMap bioWhereCtx))).
  - reflexivity.
  - apply rangeOrder_map_to_list.
  - intros field idx Hfield. simpl in Hfield.
    apply lookup_insert_Some in Hfield as [[_ <-]|[_ Hfield]];
      [split; [lia|reflexivity]|].
    apply lookup_singleton_Some in Hfield as [_ <-].
    split; [lia|reflexivity].
Defined.

(** X7.  The column-count check does not guard ordinals below zero: with a
    negative ordinal in the field map [WhereTrue] never returns a decision,
    and when that entry is visited first the read of the row panics. *)
Theorem negative_ordinal_is_not_guarded `{ExprLib} :
  ∀ (t : TableContext) (row : ColumnValues) (entries : list (string * Z))
    (field : string) (idx : Z),
    rangeOrder (FieldsMap (WhereCtx t)) entries →
    FieldsMap (WhereCtx t) !! field = Some idx →
    idx < 0 →
    (∀ decision, callWhereTrue t row entries ≠ Return (decision, None))
    ∧ (∀ rest, entries = (field, idx) :: rest →
         callWhereTrue t row entries
         = Panic (IndexOutOfRange idx
                    (Z.of_nat (length (AbstractValues row))))).
Proof.
  intros t row entries field idx Horder Hfield Hneg.
  pose proof (columnValue_negative idx {| this := t; values := row |} Hneg)
    as Hcol. simpl in Hcol.
  split.
  - apply (callWhereTrue_unbindable t row entries field idx Horder Hfield).
    intros value. by rewrite Hcol.
  - intros rest ->. rewrite callWhereTrue_unfold. unfold callBindFields.
    by rewrite bindFields_cons, Hcol.
Qed.

Lemma negative_ordinal_is_not_guarded_witness :
  callWhereTrue
    (NewTableContext peopleTable
       (@Build_WhereContext MiniQL.lib "age > 30" (Ast ageWhereCtx)
          {[ "age" := -1 ]} false))
    {| AbstractValues := [VInt 31] |} [("age", -1)]
  = Panic (IndexOutOfRange (-1) 1).
Proof.
  destruct (negative_ordinal_is_not_guarded (H := MiniQL.lib)
              (NewTableContext peopleTable
                 (@Build_WhereContext MiniQL.lib "age > 30" (Ast ageWhereCtx)
                    {[ "age" := -1 ]} false))
              {| AbstractValues := [VInt 31] |} [("age", -1)] "age" (-1))
    as [_ Hpanic].
  - unfold rangeOrder. simpl. by rewrite map_to_list_singleton.
  - reflexivity.
  - lia.
  - apply (Hpanic []). reflexivity.
Defined.

(** X8.  Every error [WhereTrue] returns comes with the decision false and
    is one of four: the not-enough-columns error of a bound ordinal the row
    does not reach, the type error of a non-nil value that is not a byte
    sequence in a bound large-text column, the evaluation failure, or the
    not-a-boolean error. *)
Theorem WhereTrue_error_kinds `{ExprLib} :
  ∀ (t : TableContext) (row : ColumnValues) (entries : list (string * Z))
    (decision : bool) (err : error),
    rangeOrder (FieldsMap (WhereCtx t)) entries →
    callWhereTrue t row entries = Return (decision, Some err) →
    decision = false
    ∧ ((∃ field idx,
          FieldsMap (WhereCtx t) !! field = Some idx
          ∧ Z.of_nat (length (AbstractValues row)) <= idx
          ∧ err = ErrNotEnoughColumns
                    (Z.of_nat (length (AbstractValues row))) idx)
       ∨ (∃ field idx rawValue columns column,
            FieldsMap (WhereCtx t) !! field = Some idx
            ∧ AbstractValues row !! Z.to_nat idx = Some rawValue
            ∧ rawValue ≠ VNil
            ∧ (∀ bs, rawValue ≠ VBytes bs)
            ∧ OriginalTableColumns (TableOf t) = Some columns
            ∧ Columns columns !! Z.to_nat idx = Some column
            ∧ ColType column = TextColumnType
            ∧ err = ErrExpectBytes (type_name rawValue))
       ∨ err = ErrCannotEval
       ∨ err = ErrNotBool).
Proof.
  intros t row entries decision err Horder Hcall.
  rewrite callWhereTrue_unfold in Hcall.
  destruct (callBindFields t row entries) as [[m|err0]|p] eqn:Hbind; [| |done].
  - destruct (Eval m (Ast (WhereCtx t))) as [[]|]; simplify_eq; auto.
  - simplify_eq. split; [done|].
    destruct (bindFields_inr _ _ _ _ Hbind) as (field & idx & Hin & Hcol).
    apply (rangeOrder_elem _ _ _ _ Horder) in Hin.
    destruct (columnValue_inr _ _ _ _ Hcol)
      as [[Hshort ->]|[_ (rawValue & columns & column & Hraw & Hnil & Hbytes
                            & Hcols & Hcolumn & Hty & ->)]].
    + left. by exists field, idx.
    + right. left. by exists field, idx, rawValue, columns, column.
Qed.

Lemma WhereTrue_error_kinds_witness :
  callWhereTrue (NewTableContext peopleTable bioWhereCtx)
    {| AbstractValues := [VInt 31; VString "x"] |}
    (map_to_list (FieldsMap bioWhereCtx))
  = Return (false, Some (ErrExpectBytes "string"))
  ∧ ∃ field idx rawValue,
      FieldsMap bioWhereCtx !! field = Some idx
      ∧ [VInt 31; VString "x"] !! Z.to_nat idx = Some rawValue
      ∧ (∀ bs, rawValue ≠ VBytes bs)
      ∧ ErrExpectBytes "string" = ErrExpectBytes (type_name rawValue).
Proof.
  split; [reflexivity|].
  destruct (WhereTrue_error_kinds (H := MiniQL.lib)
              (NewTableContext peopleTable bioWhereCtx)
              {| AbstractValues := [VInt 31; VString "x"] |}
              (map_to_list (FieldsMap bioWhereCtx))
              false (ErrExpectBytes "string")
              (rangeOrder_map_to_list _) eq_refl)
    as [_ [(field & idx & _ & _ & Herr)
          |[(field & idx & rawValue & columns & column & Hfield & Hraw & _
               & Hbytes & _ & _ & _ & Herr)
           |[Herr|Herr]]]].
  - discriminate Herr.
  - exists field, idx, rawValue. repeat split; assumption.
  - discriminate Herr.
  - discriminate Herr.
Defined.


(** ** Properties of the key check *)

Lemma makeValidMap_lookup (valid : list string) (key : string) :
  is_Some (HCL.makeValidMap valid !! key) ↔ key ∈ valid.
Proof.
  unfold HCL.makeValidMap.
  assert (∀ acc : gmap string unit,
    is_Some (fold_left (fun validMap v => <[v := tt]> validMap) valid acc !! key)
    ↔ key ∈ valid ∨ is_Some (acc !! key)) as Hgen.
  { induction valid as [|v rest IH]; intros acc; simpl.
    - split; [by right|]. intros [Hin|?]; [|done]. by apply elem_of_nil in Hin.
    - rewrite IH, elem_of_cons. destruct (decide (v = key)) as [->|Hne].
      + rewrite lookup_insert_eq. split; [intros _; by left; left|].
        intros _. right. by eexists.
      + rewrite lookup_insert_ne by done. split.
        * intros [?|?]; [left; by right|by right].
        * intros [[?|?]|?]; [congruence|by left|by right]. }
  rewrite Hgen, lookup_empty. split; [|by left].
  intros [?|[? ?]]; done.
Qed.

(** The errors an accumulated multi-error gains from a run of invalid
    keys. *)
Lemma Append_invalid_keys (bad : list string) :
  ∀ errs : list HCL.goError,
    fold_left (fun acc key => Some (HCL.Append acc (HCL.invalidKey key))) bad
      (Some (HCL.MultiError errs))
    = Some (HCL.MultiError (errs ++ (HCL.invalidKey <$> bad))).
Proof.
  induction bad as [|key rest IH]; intros errs; simpl.
  - by rewrite app_nil_r.
  - rewrite IH. by rewrite <- app_assoc.
Qed.

(** The loop over items that all carry a string key. *)
Lemma checkItems_keyed (valid : list string) (items : list HCL.ObjectItem) :
  Forall (fun item => is_Some (HCL.firstKey item)) items →
  ∀ result,
    HCL.checkItems (HCL.makeValidMap valid) items result
    = HCL.Done
        (fold_left (fun acc key => Some (HCL.Append acc (HCL.invalidKey key)))
           (HCL.invalidKeys valid items) result).
Proof.
  induction 1 as [|item rest [key Hkey] _ IH]; intros result; [done|].
  unfold HCL.invalidKeys. simpl. unfold HCL.firstKey in Hkey.
  destruct item as [keys val]. simpl in *.
  destruct keys as [|[| | |key'|] keys']; simplify_eq. simpl.
  destruct (HCL.makeValidMap valid !! key) as [[]|] eqn:Hvalid.
  - rewrite filter_cons_False.
    + apply IH.
    + intros Hnot. apply Hnot. apply makeValidMap_lookup. by eexists.
  - rewrite filter_cons_True.
    + simpl. apply IH.
    + intros Hin. apply makeValidMap_lookup in Hin as [? ?]. congruence.
Qed.

(** An item without a string key makes the loop panic. *)
Lemma checkItems_unkeyed (validMap : gmap string unit)
    (items : list HCL.ObjectItem) :
  Exists (fun item => HCL.firstKey item = None) items →
  ∀ result, ∃ p, HCL.checkItems validMap items result = HCL.Panicked p.
Proof.
  induction items as [|item rest IH]; intros Hex result.
  - by apply Exists_nil in Hex.
  - simpl. destruct item as [keys val]. simpl.
    destruct keys as [|[| | |key|] keys']; try by eexists.
    apply Exists_cons in Hex as [Hhere|Hlater]; [done|].
    destruct (validMap !! key); by apply IH.
Qed.

(** X9.  On an object list or an object type whose items all carry a string
    key, [checkHCLKeys] returns nil when no first key is outside the allowed
    ones, and otherwise one multi-error listing an "invalid key" error for
    each offending item, in the order of the items and once per item. *)
Theorem checkHCLKeys_reports_each_invalid_key :
  ∀ (node : HCL.Node) (valid : list string) (items : list HCL.ObjectItem),
    HCL.itemsOf node = Some items →
    Forall (fun item => is_Some (HCL.firstKey item)) items →
    HCL.checkHCLKeys node valid
    = HCL.Done
        match HCL.invalidKeys valid items with
        | [] => None
        | bad => Some (HCL.MultiError (HCL.invalidKey <$> bad))
        end.
Proof.
  intros node valid items Hitems Hkeyed.
  assert (HCL.checkHCLKeys node valid
          = HCL.checkItems (HCL.makeValidMap valid) items None) as ->.
  { destruct node; simpl in *; by simplify_eq. }
  rewrite (checkItems_keyed valid items Hkeyed).
  destruct (HCL.invalidKeys valid items) as [|key bad]; [done|].
  simpl. by rewrite Append_invalid_keys.
Qed.

Lemma checkHCLKeys_reports_each_invalid_key_witness :
  HCL.checkHCLKeys HCL.samplePorts HCL.portsKeys
  = HCL.Done (Some (HCL.MultiError [ HCL.Errorf "invalid key: grpc";
                                     HCL.Errorf "invalid key: smtp" ])).
Proof.
  rewrite (checkHCLKeys_reports_each_invalid_key HCL.samplePorts HCL.portsKeys
             [ HCL.Item [VString "http"] (HCL.OtherNode "*ast.LiteralType");
               HCL.Item [VString "grpc"] (HCL.OtherNode "*ast.LiteralType");
               HCL.Item [VString "rpc"] (HCL.OtherNode "*ast.LiteralType");
               HCL.Item [VString "smtp"] (HCL.OtherNode "*ast.LiteralType") ]).
  - reflexivity.
  - reflexivity.
  - repeat constructor; by eexists.
Defined.

(** X10.  On such a node [checkHCLKeys] returns nil exactly when the first
    key of every item is one of the allowed keys. *)
Theorem checkHCLKeys_nil_iff_all_keys_valid :
  ∀ (node : HCL.Node) (valid : list string) (items : list HCL.ObjectItem),
    HCL.itemsOf node = Some items →
    Forall (fun item => is_Some (HCL.firstKey item)) items →
    HCL.checkHCLKeys node valid = HCL.Done None
    ↔ ∀ item key, item ∈ items → HCL.firstKey item = Some key → key ∈ valid.
Proof.
  intros node valid items Hitems Hkeyed.
  assert (HCL.checkHCLKeys node valid
          = HCL.checkItems (HCL.makeValidMap valid) items None) as ->.
  { destruct node; simpl in *; by simplify_eq. }
  rewrite (checkItems_keyed valid items Hkeyed).
  assert (HCL.invalidKeys valid items = []
          ↔ ∀ item key, item ∈ items → HCL.firstKey item = Some key →
                        key ∈ valid) as <-.
  { unfold HCL.invalidKeys. split.
    - intros Hnone item key Hin Hkey.
      destruct (decide (key ∈ valid)) as [|Hbad]; [done|].
      assert (key ∈ filter (fun key => key ∉ valid) (omap HCL.firstKey items))
        as Hmem.
      { apply list_elem_of_filter. split; [done|].
        apply list_elem_of_omap. by exists item. }
      rewrite Hnone in Hmem. by apply elem_of_nil in Hmem.
    - intros Hall.
      destruct (filter _ _) as [|key bad] eqn:Hfilter; [done|].
      assert (key ∈ filter (fun key => key ∉ valid) (omap HCL.firstKey items))
        as Hmem by (rewrite Hfilter; apply elem_of_cons; by left).
      apply list_elem_of_filter in Hmem as [Hbad Hmem].
      apply list_elem_of_omap in Hmem as (item & Hin & Hkey).
      destruct Hbad. by eapply Hall. }
  destruct (HCL.invalidKeys valid items) as [|key bad]; [done|].
  simpl. rewrite Append_invalid_keys. split; intros; simplify_eq.
Qed.

Lemma checkHCLKeys_nil_iff_all_keys_valid_witness :
  HCL.checkHCLKeys
    (HCL.ObjectList
       [ HCL.Item [VString "rpc"] (HCL.OtherNode "*ast.LiteralType");
         HCL.Item [VString "http"; VString "x"]
           (HCL.OtherNode "*ast.LiteralType") ])
    HCL.portsKeys
  = HCL.Done None.
Proof.
  apply (checkHCLKeys_nil_iff_all_keys_valid
           (HCL.ObjectList
              [ HCL.Item [VString "rpc"] (HCL.OtherNode "*ast.LiteralType");
                HCL.Item [VString "http"; VString "x"]
                  (HCL.OtherNode "*ast.LiteralType") ])
           HCL.portsKeys _ eq_refl).
  - repeat constructor; by eexists.
  - intros item key Hin Hkey.
    apply elem_of_cons in Hin as [->|Hin];
      [|apply elem_of_cons in Hin as [->|Hin];
         [|by apply elem_of_nil in Hin]];
      simpl in Hkey; injection Hkey as <-; unfold HCL.portsKeys;
      repeat (apply elem_of_cons; (by left) || right).
Defined.

(** X11.  An item with no key, or whose first key is not a string, makes
    [checkHCLKeys] panic whatever the allowed keys: the invalid keys met
    before it are not reported. *)
Theorem checkHCLKeys_panics_on_unkeyed_item :
  ∀ (node : HCL.Node) (valid : list string) (items : list HCL.ObjectItem),
    HCL.itemsOf node = Some items →
    Exists (fun item => HCL.firstKey item = None) items →
    ∃ p, HCL.checkHCLKeys node valid = HCL.Panicked p.
Proof.
  intros node valid items Hitems Hex.
  assert (HCL.checkHCLKeys node valid
          = HCL.checkItems (HCL.makeValidMap valid) items None) as ->.
  { destruct node; simpl in *; by simplify_eq. }
  by apply checkItems_unkeyed.
Qed.

Lemma checkHCLKeys_panics_on_unkeyed_item_witness :
  ∃ p,
    HCL.checkHCLKeys
      (HCL.ObjectList
         [ HCL.Item [VString "grpc"] (HCL.OtherNode "*ast.LiteralType");
           HCL.Item [] (HCL.OtherNode "*ast.ObjectType") ])
      HCL.portsKeys
    = HCL.Panicked p.
Proof.
  apply (checkHCLKeys_panics_on_unkeyed_item
           (HCL.ObjectList
              [ HCL.Item [VString "grpc"] (HCL.OtherNode "*ast.LiteralType");
                HCL.Item [] (HCL.OtherNode "*ast.ObjectType") ])
           HCL.portsKeys _ eq_refl).
  apply Exists_cons. right. apply Exists_cons. by left.
Defined.

(** X12.  The allowed keys count as a set: two lists with the same members,
    in any order and with any repetition, give the same result on every
    node. *)
Theorem checkHCLKeys_valid_is_a_set :
  ∀ (node : HCL.Node) (valid valid' : list string),
    (∀ key, key ∈ valid ↔ key ∈ valid') →
    HCL.checkHCLKeys node valid = HCL.checkHCLKeys node valid'.
Proof.
  intros node valid valid' Hsame.
  assert (HCL.makeValidMap valid = HCL.makeValidMap valid') as Hmap.
  { apply map_eq. intros key.
    pose proof (makeValidMap_lookup valid key) as H1.
    pose proof (makeValidMap_lookup valid' key) as H2.
    destruct (HCL.makeValidMap valid !! key) as [[]|] eqn:E1,
             (HCL.makeValidMap valid' !! key) as [[]|] eqn:E2; try done.
    - assert (is_Some (@None unit)) as [? ?]; [|done].
      apply H2, Hsame, H1. by eexists.
    - assert (is_Some (@None unit)) as [? ?]; [|done].
      apply H1, Hsame, H2. by eexists. }
  destruct node; simpl; by rewrite ?Hmap.
Qed.

Lemma checkHCLKeys_valid_is_a_set_witness :
  HCL.checkHCLKeys HCL.samplePorts ["http"; "rpc"; "serf"]
  = HCL.checkHCLKeys HCL.samplePorts ["serf"; "rpc"; "http"; "rpc"].
Proof.
  apply (checkHCLKeys_valid_is_a_set HCL.samplePorts
           ["http"; "rpc"; "serf"] ["serf"; "rpc"; "http"; "rpc"]).
  intros key. rewrite !elem_of_cons. pose proof (elem_of_nil key). tauto.
Defined.
